(** * Itinerary reconstruction (package dispatcher)

    A shallow embedding of [ReconstructItinerary] and of its helpers
    [validateTickets], [buildGraph], [findStartingPoint],
    [validateEndPoints] and [findPath], followed by the properties of the
    specification that were checked against them.

    Conventions.
    - A Go [string] is a [string] (a byte sequence); Go compares strings
      bytewise, which is [String.compare].
    - A ticket is the Go [[]string]: a [list string] of any length.  An index
      expression out of range panics; the embedding returns [Panic] there.
    - Go maps are [gmap]s.  Reading a missing key yields the zero value
      ([0] for a counter, the nil slice for an adjacency list).
    - [for k := range m] visits every key of [m] once, in an order the
      runtime chooses afresh.  Each such loop of the source takes the order
      it was given as an explicit list of keys (see [schedule]).
    - The counters are Go [int]s.  Each of them counts tickets of one slice,
      whose length is itself an [int], so no increment can wrap; they are
      modelled in [Z] (see [fill_counts_bounded]). *)

From Stdlib Require Import ZArith Lia.
From stdpp Require Import gmap strings list sorting fin_maps.

Local Open Scope Z_scope.

(** ** Results *)

Inductive error : Type :=
  | ErrMultipleSameDestination
  | ErrCycleInItinerary
  | ErrDifferentStartingPoints.

Global Instance error_eq_dec : EqDecision error.
Proof. solve_decision. Defined.

(** What a call can do: return a value, return one of the sentinel errors,
    panic on an index out of range, or fail to leave a loop within the
    number of iterations the embedding allows it. *)
Inductive outcome (A : Type) : Type :=
  | Ok (a : A)
  | Err (e : error)
  | Panic
  | Diverge.
Arguments Ok {A} a.
Arguments Err {A} e.
Arguments Panic {A}.
Arguments Diverge {A}.

Global Instance outcome_ret : MRet outcome := @Ok.
Global Instance outcome_bind : MBind outcome := λ A B f c,
  match c with
  | Ok a => f a
  | Err e => Err e
  | Panic => Panic
  | Diverge => Diverge
  end.

(** [s[i]] on a slice. *)
Definition index {A} (l : list A) (i : nat) : outcome A :=
  match l !! i with
  | Some x => Ok x
  | None => Panic
  end.

(** [m[k]] on a [map[K]int]. *)
Definition count `{Countable K} (m : gmap K Z) (k : K) : Z :=
  default 0 (m !! k).

(** [m[k]] on a [map[string][]string]. *)
Definition adj (graph : gmap string (list string)) (k : string) : list string :=
  default [] (graph !! k).

(** [s[:len(s)-1]]. *)
Definition drop_last {A} (l : list A) : list A :=
  take (length l - 1)%nat l.

(** ** validateTickets *)

Fixpoint validateTickets_from (ticketCount : gmap (string * string) Z)
    (tickets : list (list string)) : outcome (gmap (string * string) Z) :=
  match tickets with
  | [] => Ok ticketCount
  | ticket :: rest =>
      s ← index ticket 0;
      d ← index ticket 1;
      let key := (s, d) in
      let ticketCount := <[key := count ticketCount key + 1]> ticketCount in
      if 1 <? count ticketCount key
      then Err ErrMultipleSameDestination
      else validateTickets_from ticketCount rest
  end.

Definition validateTickets (tickets : list (list string))
    : outcome (gmap (string * string) Z) :=
  validateTickets_from ∅ tickets.

(** ** buildGraph *)

(** [sort.Slice(s, func(i, j) bool { return s[i] > s[j] })]: the
    arrangement of [s] in descending order.  [sort.Slice] is not stable, but
    the order on strings is total and antisymmetric, so that arrangement is
    unique ([sort_desc_unique]). *)
Definition desc (a b : string) : Prop := String.le b a.

Global Instance desc_dec : RelDecision desc.
Proof. intros a b. unfold desc. apply _. Defined.

Global Instance desc_trans : Transitive desc.
Proof. intros a b c Hab Hbc. unfold desc in *. by etrans. Qed.

Global Instance desc_antisym : AntiSymm (=) desc.
Proof. intros a b Hab Hba. unfold desc in *. by apply (anti_symm String.le). Qed.

Global Instance desc_total : Total desc.
Proof. intros a b. unfold desc. apply (total String.le). Qed.

Definition sort_desc (l : list string) : list string := merge_sort desc l.

Record tables : Type := Tables {
  t_graph : gmap string (list string);
  t_out : gmap string Z;
  t_in : gmap string Z;
}.

(** The first loop of [buildGraph]. *)
Fixpoint buildGraph_fill (t : tables) (tickets : list (list string))
    : outcome tables :=
  match tickets with
  | [] => Ok t
  | ticket :: rest =>
      src ← index ticket 0;
      dst ← index ticket 1;
      buildGraph_fill
        {| t_graph := <[src := adj (t_graph t) src ++ [dst]]> (t_graph t);
           t_out := <[src := count (t_out t) src + 1]> (t_out t);
           t_in := <[dst := count (t_in t) dst + 1]> (t_in t) |}
        rest
  end.

(** The second loop of [buildGraph], over the keys in the order [srcs]. *)
Definition buildGraph_sort (srcs : list string)
    (graph : gmap string (list string)) : gmap string (list string) :=
  foldl (λ g src, alter sort_desc src g) graph srcs.

Definition buildGraph (srcs : list string) (tickets : list (list string))
    : outcome tables :=
  t ← buildGraph_fill (Tables ∅ ∅ ∅) tickets;
  Ok {| t_graph := buildGraph_sort srcs (t_graph t);
        t_out := t_out t;
        t_in := t_in t |}.

(** ** findStartingPoint *)

(** The first loop: the start candidates collected so far and [validStart];
    an imbalance beyond one leaves the loop at once. *)
Fixpoint findStartingPoint_scan (nodes : list string)
    (outDegree inDegree : gmap string Z) (startCandidates : list string)
    : list string * bool :=
  match nodes with
  | [] => (startCandidates, true)
  | node :: rest =>
      let diff := count outDegree node - count inDegree node in
      if diff =? 1 then
        findStartingPoint_scan rest outDegree inDegree (startCandidates ++ [node])
      else if (diff <? -1) || (1 <? diff) then (startCandidates, false)
      else findStartingPoint_scan rest outDegree inDegree startCandidates
  end.

(** The last loop ("check if all nodes are balanced"). *)
Fixpoint findStartingPoint_balanced (nodes : list string)
    (outDegree inDegree : gmap string Z) : outcome unit :=
  match nodes with
  | [] => Ok ()
  | node :: rest =>
      if negb (count outDegree node =? count inDegree node)
      then Err ErrDifferentStartingPoints
      else findStartingPoint_balanced rest outDegree inDegree
  end.

Definition findStartingPoint (nodes1 nodes2 : list string)
    (outDegree inDegree : gmap string Z) : outcome string :=
  let '(startCandidates, validStart) :=
    findStartingPoint_scan nodes1 outDegree inDegree [] in
  if negb validStart || (1 <? length startCandidates)%nat
  then Err ErrDifferentStartingPoints
  else if (length startCandidates =? 1)%nat then index startCandidates 0
  else
    _ ← findStartingPoint_balanced nodes2 outDegree inDegree;
    Err ErrDifferentStartingPoints.

(** ** validateEndPoints *)

Fixpoint validateEndPoints_scan (nodes : list string)
    (outDegree inDegree : gmap string Z) (endCandidates : Z) : outcome Z :=
  match nodes with
  | [] => Ok endCandidates
  | node :: rest =>
      let diff := count inDegree node - count outDegree node in
      if diff =? 1 then
        validateEndPoints_scan rest outDegree inDegree (endCandidates + 1)
      else if (diff <? -1) || (1 <? diff) then Err ErrDifferentStartingPoints
      else validateEndPoints_scan rest outDegree inDegree endCandidates
  end.

Definition validateEndPoints (nodes : list string)
    (startCandidates : list string) (outDegree inDegree : gmap string Z)
    : outcome unit :=
  endCandidates ← validateEndPoints_scan nodes outDegree inDegree 0;
  if (length startCandidates =? 1)%nat && negb (endCandidates =? 1)
  then Err ErrDifferentStartingPoints
  else Ok ().

(** ** findPath *)

(** The state of the walk loop: the graph being consumed, the stack (its
    top is the last element, as in the slice) and the result so far. *)
Record walk : Type := Walk {
  w_graph : gmap string (list string);
  w_stack : list string;
  w_result : list string;
}.

(** One iteration of [for len(stack) > 0]; [None] when the condition fails. *)
Definition findPath_step (w : walk) : option walk :=
  match last (w_stack w) with
  | None => None
  | Some curr =>
      match w_graph w !! curr with
      | Some dests =>
          match last dests with
          | Some nextDest =>
              Some {| w_graph := <[curr := drop_last dests]> (w_graph w);
                      w_stack := w_stack w ++ [nextDest];
                      w_result := w_result w |}
          | None =>
              Some {| w_graph := w_graph w;
                      w_stack := drop_last (w_stack w);
                      w_result := w_result w ++ [curr] |}
          end
      | None =>
          Some {| w_graph := w_graph w;
                  w_stack := drop_last (w_stack w);
                  w_result := w_result w ++ [curr] |}
      end
  end.

(** The loop, allowed [fuel] iterations. *)
Fixpoint findPath_loop (fuel : nat) (w : walk) : option walk :=
  match findPath_step w with
  | None => Some w
  | Some w' =>
      match fuel with
      | O => None
      | S fuel => findPath_loop fuel w'
      end
  end.

(** The closing loop of [findPath]: [result] reversed in place by swapping
    [result[i]] and [result[j]] while [i < j]. *)
Fixpoint reverse_loop (fuel : nat) (i j : nat) (result : list string)
    : list string :=
  match fuel with
  | O => result
  | S fuel =>
      if (i <? j)%nat then
        match result !! i, result !! j with
        | Some a, Some b =>
            reverse_loop fuel (i + 1) (j - 1) (<[j := a]> (<[i := b]> result))
        | _, _ => result
        end
      else result
  end.

Definition reverse_slice (result : list string) : list string :=
  reverse_loop (length result) 0 (length result - 1) result.

(** Number of edges left in a graph. *)
Definition edges (graph : gmap string (list string)) : nat :=
  map_fold (λ _ dests n, (length dests + n)%nat) 0%nat graph.

Definition findPath (start : string) (graph : gmap string (list string))
    : outcome (list string) :=
  match findPath_loop (2 * edges graph + 1)
          {| w_graph := graph; w_stack := [start]; w_result := [] |} with
  | Some w => Ok (reverse_slice (w_result w))
  | None => Diverge
  end.

(** ** ReconstructItinerary *)

(** The key orders the runtime picked for the four [range] loops over maps
    of one call. *)
Record schedule : Type := Schedule {
  s_sort : list string;      (* buildGraph: for src := range graph *)
  s_start : list string;     (* findStartingPoint: first range outDegree *)
  s_balanced : list string;  (* findStartingPoint: second range outDegree *)
  s_end : list string;       (* validateEndPoints: range inDegree *)
}.

Definition ReconstructItinerary_in (sch : schedule)
    (tickets : list (list string)) : outcome (list string) :=
  if (length tickets =? 0)%nat then Ok []
  else
    _ ← validateTickets tickets;
    t ← buildGraph (s_sort sch) tickets;
    start ← findStartingPoint (s_start sch) (s_balanced sch) (t_out t) (t_in t);
    let startCandidates := [start] in
    _ ← validateEndPoints (s_end sch) startCandidates (t_out t) (t_in t);
    result ← findPath start (t_graph t);
    if (2 <=? length result)%nat then
      first ← index result 0;
      final ← index result (length result - 1);
      if String.eqb first final then Err ErrCycleInItinerary else Ok result
    else Ok result.

(** A range over [m] visits each key of [m] exactly once. *)
Definition ranges {V} (m : gmap string V) (keys : list string) : Prop :=
  keys ≡ₚ elements (dom m).

Global Instance ranges_dec {V} (m : gmap string V) keys : Decision (ranges m keys).
Proof. unfold ranges. apply _. Defined.

(** The tables [buildGraph] fills for [tickets], before sorting. *)
Definition tables_of (tickets : list (list string)) : tables :=
  match buildGraph_fill (Tables ∅ ∅ ∅) tickets with
  | Ok t => t
  | _ => Tables ∅ ∅ ∅
  end.

(** The schedules a run on [tickets] can see. *)
Definition admissible (tickets : list (list string)) (sch : schedule) : Prop :=
  ranges (t_graph (tables_of tickets)) (s_sort sch)
  ∧ ranges (t_out (tables_of tickets)) (s_start sch)
  ∧ ranges (t_out (tables_of tickets)) (s_balanced sch)
  ∧ ranges (t_in (tables_of tickets)) (s_end sch).

(** One of them: every loop in the order of [elements]. *)
Definition schedule_of (tickets : list (list string)) : schedule :=
  let t := tables_of tickets in
  {| s_sort := elements (dom (t_graph t));
     s_start := elements (dom (t_out t));
     s_balanced := elements (dom (t_out t));
     s_end := elements (dom (t_in t)) |}.

Definition ReconstructItinerary (tickets : list (list string))
    : outcome (list string) :=
  ReconstructItinerary_in (schedule_of tickets) tickets.

(** * Vocabulary of the properties

    The notions the properties below are stated with.  None of them is
    part of the code. *)

(** ** Tickets *)

(** The stated precondition: every ticket has a source and a destination. *)
Definition well_formed (tickets : list (list string)) : Prop :=
  Forall (λ ticket, (2 ≤ length ticket)%nat) tickets.

Global Instance well_formed_dec tickets : Decision (well_formed tickets).
Proof. unfold well_formed. apply _. Defined.

(** [(ticket[0], ticket[1])], when both exist. *)
Definition ticket_pair (ticket : list string) : option (string * string) :=
  match ticket !! 0%nat, ticket !! 1%nat with
  | Some s, Some d => Some (s, d)
  | _, _ => None
  end.

Definition pairs (tickets : list (list string)) : list (string * string) :=
  omap ticket_pair tickets.

(** A ticket from [u] to [v]. *)
Definition flies (tickets : list (list string)) (u v : string) : Prop :=
  (u, v) ∈ pairs tickets.


(** Number of tickets that leave [u], and that arrive at [u]. *)
Definition out_degree (tickets : list (list string)) (u : string) : nat :=
  length (filter (λ p, p.1 = u) (pairs tickets)).

Definition in_degree (tickets : list (list string)) (u : string) : nat :=
  length (filter (λ p, p.2 = u) (pairs tickets)).

(** ** The loops of validateTickets and buildGraph *)

(** [ticketCount] holds one for each pair of [seen] and nothing else. *)
Definition counts_seen (ticketCount : gmap (string * string) Z)
    (seen : list (string * string)) : Prop :=
  ∀ p, count ticketCount p = if decide (p ∈ seen) then 1 else 0.

(** What one iteration of the first loop of [buildGraph] does to the
    tables. *)
Definition add_ticket (t : tables) (p : string * string) : tables :=
  {| t_graph := <[p.1 := adj (t_graph t) p.1 ++ [p.2]]> (t_graph t);
     t_out := <[p.1 := count (t_out t) p.1 + 1]> (t_out t);
     t_in := <[p.2 := count (t_in t) p.2 + 1]> (t_in t) |}.

(** The graph handed to [findPath]. *)
Definition graph_of (srcs : list string) (tickets : list (list string))
    : gmap string (list string) :=
  buildGraph_sort srcs (t_graph (tables_of tickets)).

(** Every adjacency list is in descending order. *)
Definition sorted_graph (graph : gmap string (list string)) : Prop :=
  ∀ u, StronglySorted desc (adj graph u).

(** ** Degree imbalances *)

(** [outDegree[node] - inDegree[node] == 1]. *)
Definition start_candidate (outDegree inDegree : gmap string Z)
    (node : string) : Prop :=
  count outDegree node - count inDegree node = 1.

(** [inDegree[node] - outDegree[node] == 1]. *)
Definition end_candidate (outDegree inDegree : gmap string Z)
    (node : string) : Prop :=
  count inDegree node - count outDegree node = 1.

(** The imbalance of [node] exceeds one in absolute value. *)
Definition unbalanced (outDegree inDegree : gmap string Z)
    (node : string) : Prop :=
  1 < Z.abs (count outDegree node - count inDegree node).

Global Instance start_candidate_dec outDegree inDegree node :
  Decision (start_candidate outDegree inDegree node).
Proof. unfold start_candidate. apply _. Defined.

Global Instance end_candidate_dec outDegree inDegree node :
  Decision (end_candidate outDegree inDegree node).
Proof. unfold end_candidate. apply _. Defined.

Global Instance unbalanced_dec outDegree inDegree node :
  Decision (unbalanced outDegree inDegree node).
Proof. unfold unbalanced. apply _. Defined.

(** Every node of the degree tables of [tickets]. *)
Definition nodes_of (tickets : list (list string)) : list string :=
  elements (dom (t_out (tables_of tickets)) ∪ dom (t_in (tables_of tickets))).

(** ** The walk as a transition system *)

(** The two kinds of iteration: follow the last remaining destination of
    the node on top of the stack, or retire that node. *)
Inductive walk_step : walk → walk → Prop :=
  | walk_push graph stack curr dests nextDest result :
      graph !! curr = Some (dests ++ [nextDest]) →
      walk_step (Walk graph (stack ++ [curr]) result)
                (Walk (<[curr := dests]> graph)
                      ((stack ++ [curr]) ++ [nextDest]) result)
  | walk_pop graph stack curr result :
      adj graph curr = [] →
      walk_step (Walk graph (stack ++ [curr]) result)
                (Walk graph stack (result ++ [curr])).

(** [n] iterations in a row. *)
Fixpoint findPath_steps (n : nat) (w : walk) : option walk :=
  match n with
  | O => Some w
  | S n => w' ← findPath_step w; findPath_steps n w'
  end.

(** What is left to do: every edge costs a push and a pop. *)
Definition walk_measure (w : walk) : nat :=
  (2 * edges (w_graph w) + length (w_stack w))%nat.

(** The number of stops seen plus the number of edges left never changes. *)
Definition walk_total (w : walk) : nat :=
  (edges (w_graph w) + length (w_stack w) + length (w_result w))%nat.

(** [v] is a destination of [u] in [graph]. *)
Definition graph_edge (graph : gmap string (list string)) (u v : string) : Prop :=
  v ∈ adj graph u.

(** [u] is on the stack or was retired. *)
Definition seen (w : walk) (u : string) : Prop :=
  u ∈ w_stack w ∨ u ∈ w_result w.

(** What holds of every state of a walk over [graph0] from [start]. *)
Record walk_inv (graph0 : gmap string (list string)) (start : string)
    (w : walk) : Prop := WalkInv {
  (* the edges consumed so far led to nodes already seen *)
  inv_consumed : ∀ u, ∃ used,
    adj graph0 u = adj (w_graph w) u ++ used ∧ ∀ v, v ∈ used → seen w v;
  (* a retired node has no edge left *)
  inv_retired : ∀ u, u ∈ w_result w → adj (w_graph w) u = [];
  (* only nodes that were on the stack lost edges *)
  inv_touched : ∀ u, adj (w_graph w) u ≠ adj graph0 u → seen w u;
  (* every node seen can be reached from the start *)
  inv_reach : ∀ u, seen w u → rtc (graph_edge graph0) start u;
  inv_start : seen w start;
  (* the start stays at the bottom of the stack and is retired last *)
  inv_head : head (w_stack w ++ reverse (w_result w)) = Some start;
}.

(** ** Counting *)

(** Number of occurrences of [x] in [l]. *)
Definition occ {A} `{EqDecision A} (x : A) (l : list A) : nat :=
  length (filter (λ y, y = x) l).

(** Number of edges of [graph] that arrive at [v]. *)
Definition in_count (graph : gmap string (list string)) (v : string) : nat :=
  map_fold (λ _ dests n, (occ v dests + n)%nat) 0%nat graph.

(** One if [P] holds, zero otherwise. *)
Definition ind (P : Prop) `{Decision P} : nat := if decide P then 1%nat else 0%nat.

(** ** The walk in one piece *)

(** The walk from [curr] in one piece: with no edge left, [curr] is retired;
    otherwise the walk follows the last destination [nextDest] of [curr],
    retires everything it meets until it is back at [curr] with [nextDest]
    retired ([after]), and goes on from [curr] in what is left of the graph
    ([before]).  The stops are retired in the reverse of [before ++ after]. *)
Inductive dfs : gmap string (list string) → string →
    gmap string (list string) → list string → Prop :=
  | dfs_retire graph curr :
      adj graph curr = [] → dfs graph curr graph [curr]
  | dfs_follow graph curr dests nextDest graph1 graph2 after before :
      graph !! curr = Some (dests ++ [nextDest]) →
      dfs (<[curr := dests]> graph) nextDest graph1 after →
      dfs graph1 curr graph2 before →
      dfs graph curr graph2 (before ++ after).

(** Every node of [graph] has as many edges out as in, but for one more out
    of [first] and one more into [final]. *)
Definition balanced_but (graph : gmap string (list string))
    (first final : string) : Prop :=
  ∀ x, (length (adj graph x) + ind (x = final)
        = in_count graph x + ind (x = first))%nat.

(** No adjacency list holds a destination twice. *)
Definition simple_graph (graph : gmap string (list string)) : Prop :=
  ∀ u, NoDup (adj graph u).

(** ** The closing test *)

(** The closing test of [ReconstructItinerary]. *)
Definition cycle_check (result : list string) : outcome (list string) :=
  if (2 <=? length result)%nat then
    first ← index result 0;
    final ← index result (length result - 1);
    if String.eqb first final then Err ErrCycleInItinerary else Ok result
  else Ok result.

(** ** Trails *)

(** The edges of a trail, and what it means to use every ticket once. *)
Definition trail_edges (trail : list string) : list (string * string) :=
  zip trail (tail trail).

Definition eulerian_trail (tickets : list (list string))
    (trail : list string) : Prop :=
  trail_edges trail ≡ₚ pairs tickets.

Global Instance eulerian_trail_dec tickets trail :
  Decision (eulerian_trail tickets trail).
Proof. unfold eulerian_trail. apply _. Defined.

(** The lexicographic order on trails. *)
Fixpoint trail_ltb (a b : list string) : bool :=
  match a, b with
  | [], [] => false
  | [], _ :: _ => true
  | _ :: _, [] => false
  | x :: a', y :: b' =>
      String.ltb x y || (String.eqb x y && trail_ltb a' b')
  end.

(** [trail] starts at [first], follows edges of [graph], uses none of them
    twice, and uses every edge that leaves a node reachable from [first]. *)
Definition covers (graph : gmap string (list string)) (first : string)
    (trail : list string) : Prop :=
  head trail = Some first
  ∧ NoDup (trail_edges trail)
  ∧ (∀ a b, (a, b) ∈ trail_edges trail → graph_edge graph a b)
  ∧ (∀ a b, rtc (graph_edge graph) first a → graph_edge graph a b →
            (a, b) ∈ trail_edges trail).

(** [a] is [b] or comes before [b] in the lexicographic order. *)
Definition trail_le (a b : list string) : Prop :=
  a = b ∨ trail_ltb a b = true.

(** * Properties *)

(** ** Slices *)

Section slices.
Context {A : Type}.
Implicit Types l : list A.

Lemma drop_last_snoc l x : drop_last (l ++ [x]) = l.
Proof.
  unfold drop_last. rewrite length_app. simpl.
  replace (length l + 1 - 1)%nat with (length l) by lia.
  apply take_app_length.
Qed.

Lemma drop_last_nil : drop_last (@nil A) = [].
Proof. reflexivity. Qed.

Lemma index_Ok l i x : index l i = Ok x ↔ l !! i = Some x.
Proof. unfold index. destruct (l !! i); split; congruence. Qed.

Lemma index_in_range l i : (i < length l)%nat → ∃ x, index l i = Ok x.
Proof.
  intros Hi. destruct (lookup_lt_is_Some_2 l i Hi) as [x Hx].
  exists x. by apply index_Ok.
Qed.

Lemma index_not_Err l i e : index l i ≠ Err e.
Proof. unfold index. by destruct (l !! i). Qed.

Lemma index_not_Diverge l i : index l i ≠ Diverge.
Proof. unfold index. by destruct (l !! i). Qed.
End slices.

(** The swap loop reverses the part of the slice between [i] and [j]. *)
Lemma reverse_loop_middle fuel (pre mid post : list string) :
  (length mid ≤ 2 * fuel)%nat →
  reverse_loop fuel (length pre) (length pre + length mid - 1)
    (pre ++ mid ++ post) = pre ++ reverse mid ++ post.
Proof.
  revert pre mid post. induction fuel as [|fuel IH]; intros pre mid post Hlen.
  { destruct mid; [done | simpl in Hlen; lia]. }
  destruct mid as [|a mid]; simpl.
  { case_match; [|done]. apply Nat.ltb_lt in H. lia. }
  destruct (decide (mid = [])) as [->|Hne].
  { simpl. case_match; [|done]. apply Nat.ltb_lt in H. lia. }
  destruct (proj2 (last_is_Some mid) Hne) as [b Hb].
  apply last_Some in Hb as [mid' ->].
  rewrite length_app in *. simpl in *.
  assert ((length pre <? length pre + S (length mid' + 1) - 1)%nat = true) as ->
    by (apply Nat.ltb_lt; lia).
  assert ((pre ++ a :: (mid' ++ [b]) ++ post) !! length pre = Some a) as ->.
  { by rewrite list_lookup_middle. }
  assert ((pre ++ a :: (mid' ++ [b]) ++ post)
            !! (length pre + S (length mid' + 1) - 1)%nat = Some b) as ->.
  { replace (pre ++ a :: (mid' ++ [b]) ++ post)
      with ((pre ++ a :: mid') ++ b :: post)
      by (by rewrite <-!app_assoc).
    apply list_lookup_middle. rewrite length_app. simpl. lia. }
  assert (<[(length pre + S (length mid' + 1) - 1)%nat := a]>
            (<[length pre := b]> (pre ++ a :: (mid' ++ [b]) ++ post))
          = (pre ++ [b]) ++ mid' ++ (a :: post)) as ->.
  { rewrite insert_app_r_alt by lia.
    replace (length pre - length pre)%nat with 0%nat by lia. simpl.
    replace (pre ++ b :: (mid' ++ [b]) ++ post)
      with ((pre ++ b :: mid') ++ b :: post)
      by (by rewrite <-!app_assoc).
    rewrite insert_app_r_alt by (rewrite length_app; simpl; lia).
    replace (length pre + S (length mid' + 1) - 1
               - length (pre ++ b :: mid'))%nat with 0%nat
      by (rewrite length_app; simpl; lia).
    simpl. by rewrite <-!app_assoc. }
  replace (length pre + 1)%nat with (length (pre ++ [b]))
    by (rewrite length_app; simpl; lia).
  replace (length pre + S (length mid' + 1) - 1 - 1)%nat
    with (length (pre ++ [b]) + length mid' - 1)%nat
    by (rewrite length_app; simpl; lia).
  rewrite IH by (simpl in Hlen; rewrite length_app in Hlen; simpl in Hlen; lia).
  rewrite reverse_cons, reverse_snoc. simpl. by rewrite <-!app_assoc.
Qed.

Lemma reverse_slice_reverse (result : list string) :
  reverse_slice result = reverse result.
Proof.
  unfold reverse_slice.
  pose proof (reverse_loop_middle (length result) [] result []) as H.
  simpl in H. rewrite !app_nil_r in H. apply H. lia.
Qed.

(** ** Counting edges *)

Lemma edges_empty : edges ∅ = 0%nat.
Proof. unfold edges. by rewrite map_fold_empty. Qed.

Lemma edges_insert_None graph k dests :
  graph !! k = None →
  edges (<[k := dests]> graph) = (length dests + edges graph)%nat.
Proof.
  intros Hk. unfold edges.
  rewrite map_fold_insert_L; [done | | done].
  intros. lia.
Qed.

Lemma edges_delete graph k dests :
  graph !! k = Some dests →
  edges graph = (length dests + edges (delete k graph))%nat.
Proof.
  intros Hk. rewrite <-(insert_delete_id graph k dests Hk) at 1.
  apply edges_insert_None, lookup_delete_eq.
Qed.

Lemma edges_insert_Some graph k dests dests' :
  graph !! k = Some dests →
  (edges (<[k := dests']> graph) + length dests
   = edges graph + length dests')%nat.
Proof.
  intros Hk. rewrite (edges_delete graph k dests Hk).
  rewrite <-insert_delete_eq.
  rewrite edges_insert_None by apply lookup_delete_eq. lia.
Qed.


Lemma edges_zero graph :
  edges graph = 0%nat ↔ ∀ k, adj graph k = [].
Proof.
  induction graph as [|k dests graph Hk IH] using map_ind.
  { split; [|by rewrite edges_empty].
    intros _ k. unfold adj. by rewrite lookup_empty. }
  rewrite edges_insert_None by done. split.
  - intros Hz k'. unfold adj.
    destruct (decide (k = k')) as [<-|Hne].
    + rewrite lookup_insert_eq. simpl. apply length_zero_iff_nil. lia.
    + rewrite lookup_insert_ne by done. apply IH. lia.
  - intros Hall.
    pose proof (Hall k) as Hkk. unfold adj in Hkk.
    rewrite lookup_insert_eq in Hkk. simpl in Hkk. subst dests. simpl.
    apply IH. intros k'. destruct (decide (k = k')) as [<-|Hne].
    + unfold adj. by rewrite Hk.
    + specialize (Hall k'). unfold adj in *.
      by rewrite lookup_insert_ne in Hall.
Qed.

(** ** The walk as a transition system *)

Lemma findPath_step_walk_step w w' :
  findPath_step w = Some w' ↔ walk_step w w'.
Proof.
  destruct w as [graph stack result]. unfold findPath_step. simpl. split.
  - destruct (last stack) as [curr|] eqn:Hlast; [|done].
    apply last_Some in Hlast as [stack' ->].
    destruct (graph !! curr) as [dests|] eqn:Hcurr.
    + destruct (last dests) as [nextDest|] eqn:Hd.
      * apply last_Some in Hd as [dests' ->]. intros [= <-].
        rewrite drop_last_snoc. by constructor.
      * apply last_None in Hd as ->. intros [= <-].
        rewrite drop_last_snoc. constructor. unfold adj. by rewrite Hcurr.
    + intros [= <-]. rewrite drop_last_snoc. constructor.
      unfold adj. by rewrite Hcurr.
  - inversion 1 as [? ? ? ? ? ? Hcurr|? ? ? ? Hadj]; subst.
    + rewrite last_snoc, Hcurr, last_snoc. by rewrite drop_last_snoc.
    + rewrite last_snoc. unfold adj in Hadj.
      destruct (graph !! curr) as [dests|]; simpl in Hadj.
      * subst dests. simpl. by rewrite drop_last_snoc.
      * by rewrite drop_last_snoc.
Qed.

Lemma findPath_step_None w : findPath_step w = None ↔ w_stack w = [].
Proof.
  unfold findPath_step. destruct (last (w_stack w)) eqn:Hlast.
  - split.
    + repeat case_match; discriminate.
    + intros Hnil. rewrite Hnil in Hlast. discriminate.
  - apply last_None in Hlast. by split.
Qed.

Lemma walk_step_edges w w' :
  walk_step w w' →
  (edges (w_graph w') + 1 = edges (w_graph w)
   ∧ length (w_stack w') = length (w_stack w) + 1
   ∧ w_result w' = w_result w)%nat
  ∨ (edges (w_graph w') = edges (w_graph w)
     ∧ length (w_stack w') + 1 = length (w_stack w)
     ∧ length (w_result w') = length (w_result w) + 1)%nat.
Proof.
  destruct 1 as [graph stack curr dests nextDest result Hcurr|]; simpl.
  - left. pose proof (edges_insert_Some graph curr _ dests Hcurr) as He.
    rewrite !length_app in *. simpl in *. split_and!; [lia | lia | done].
  - right. rewrite !length_app. simpl. lia.
Qed.

Lemma walk_step_measure w w' :
  walk_step w w' → walk_measure w = S (walk_measure w').
Proof.
  intros Hstep. unfold walk_measure.
  destruct (walk_step_edges _ _ Hstep) as [(?&?&?)|(?&?&?)]; lia.
Qed.

Lemma walk_step_total w w' : walk_step w w' → walk_total w' = walk_total w.
Proof.
  intros Hstep. unfold walk_total.
  destruct (walk_step_edges _ _ Hstep) as [(?&?&Hr)|(?&?&?)]; [rewrite Hr|]; lia.
Qed.

Lemma findPath_loop_steps fuel w w' :
  findPath_loop fuel w = Some w' →
  ∃ n, (n ≤ fuel)%nat ∧ findPath_steps n w = Some w' ∧ w_stack w' = [].
Proof.
  revert w. induction fuel as [|fuel IH]; intros w; simpl.
  - destruct (findPath_step w) eqn:Hstep; [done|].
    intros [= <-]. exists 0%nat. split_and!; [lia | done |].
    by apply findPath_step_None.
  - destruct (findPath_step w) as [w1|] eqn:Hstep.
    + intros Hloop. destruct (IH _ Hloop) as (n & Hn & Hsteps & Hnil).
      exists (S n). split_and!; [lia | | done]. simpl. by rewrite Hstep.
    + intros [= <-]. exists 0%nat. split_and!; [lia | done |].
      by apply findPath_step_None.
Qed.

(** The loop is left after exactly [walk_measure] minus twice the edges that
    remain iterations; [walk_measure] iterations are always enough. *)
Lemma findPath_loop_terminates fuel w :
  (walk_measure w ≤ fuel)%nat →
  ∃ w', findPath_loop fuel w = Some w'
        ∧ findPath_steps (walk_measure w - walk_measure w') w = Some w'
        ∧ w_stack w' = []
        ∧ walk_total w' = walk_total w.
Proof.
  revert w. induction fuel as [|fuel IH]; intros w Hfuel; simpl.
  - destruct (findPath_step w) as [w1|] eqn:Hstep.
    + apply findPath_step_walk_step, walk_step_measure in Hstep. lia.
    + exists w. rewrite Nat.sub_diag. split_and!; try done.
      by apply findPath_step_None.
  - destruct (findPath_step w) as [w1|] eqn:Hstep.
    + pose proof Hstep as Hstep'.
      apply findPath_step_walk_step in Hstep'.
      pose proof (walk_step_measure _ _ Hstep') as Hm.
      destruct (IH w1) as (w' & Hloop & Hsteps & Hnil & Htot); [lia|].
      exists w'. split_and!; [done | | done |].
      * assert (walk_measure w' ≤ walk_measure w1)%nat as Hle.
        { clear -Hsteps. revert Hsteps.
          generalize (walk_measure w1 - walk_measure w')%nat as n.
          intros n. revert w1. induction n as [|n IHn]; intros w1; simpl.
          - by intros [= ->].
          - destruct (findPath_step w1) as [w2|] eqn:Hs; [|done]. simpl.
            intros Hn. apply IHn in Hn.
            apply findPath_step_walk_step, walk_step_measure in Hs. lia. }
        replace (walk_measure w - walk_measure w')%nat
          with (S (walk_measure w1 - walk_measure w'))%nat by lia.
        simpl. by rewrite Hstep.
      * rewrite Htot. by apply walk_step_total.
    + exists w. rewrite Nat.sub_diag. split_and!; try done.
      by apply findPath_step_None.
Qed.

(** ** Tickets as pairs *)

Lemma ticket_pair_is_Some ticket :
  is_Some (ticket_pair ticket) ↔ (2 ≤ length ticket)%nat.
Proof.
  unfold ticket_pair. destruct ticket as [|s [|d ticket]]; simpl.
  - split; [by intros [? ?] | lia].
  - split; [by intros [? ?] | lia].
  - split; [lia | by eexists].
Qed.

Lemma ticket_pair_index ticket s d :
  ticket_pair ticket = Some (s, d) ↔ index ticket 0 = Ok s ∧ index ticket 1 = Ok d.
Proof.
  unfold ticket_pair, index.
  destruct (ticket !! 0%nat), (ticket !! 1%nat);
    (split; [intros [=]; by subst | intros [[=] [=]]; by subst]).
Qed.

Lemma ticket_pair_None ticket :
  ticket_pair ticket = None →
  index ticket 0 = Panic ∨ ∃ s, index ticket 0 = Ok s ∧ index ticket 1 = Panic.
Proof.
  unfold ticket_pair, index.
  destruct (ticket !! 0%nat), (ticket !! 1%nat); naive_solver.
Qed.

Lemma well_formed_cons ticket tickets :
  well_formed (ticket :: tickets) ↔
  (∃ s d, ticket_pair ticket = Some (s, d)) ∧ well_formed tickets.
Proof.
  unfold well_formed. rewrite Forall_cons, <-ticket_pair_is_Some.
  split; intros [Hp ?]; (split; [|done]).
  - destruct Hp as [[s d] ?]. eauto.
  - destruct Hp as (s & d & ?). eauto.
Qed.

Lemma well_formed_app tickets1 tickets2 :
  well_formed (tickets1 ++ tickets2) ↔
  well_formed tickets1 ∧ well_formed tickets2.
Proof. apply Forall_app. Qed.

Lemma pairs_cons ticket tickets s d :
  ticket_pair ticket = Some (s, d) →
  pairs (ticket :: tickets) = (s, d) :: pairs tickets.
Proof. intros Hp. unfold pairs. simpl. by rewrite Hp. Qed.

Lemma pairs_length tickets :
  well_formed tickets → length (pairs tickets) = length tickets.
Proof.
  induction tickets as [|ticket tickets IH]; [done|].
  intros [(s & d & Hp) Hwf]%well_formed_cons.
  rewrite (pairs_cons _ _ _ _ Hp). simpl. by rewrite IH.
Qed.

Lemma pairs_lookup tickets i ticket :
  well_formed tickets → tickets !! i = Some ticket →
  pairs tickets !! i = ticket_pair ticket.
Proof.
  revert i. induction tickets as [|t tickets IH]; intros i; [done|].
  intros [(s & d & Hp) Hwf]%well_formed_cons.
  rewrite (pairs_cons _ _ _ _ Hp).
  destruct i as [|i]; simpl; [by intros [= <-] | by apply IH].
Qed.

(** ** validateTickets *)

Lemma counts_seen_empty : counts_seen ∅ [].
Proof.
  intros p. unfold count. rewrite lookup_empty. simpl.
  destruct (decide (p ∈ [])) as [Hin|]; [|done]. by apply not_elem_of_nil in Hin.
Qed.

Lemma counts_seen_insert ticketCount seen p :
  counts_seen ticketCount seen → p ∉ seen →
  counts_seen (<[p := count ticketCount p + 1]> ticketCount) (p :: seen).
Proof.
  intros Hc Hp q. unfold count at 1.
  destruct (decide (p = q)) as [<-|Hne].
  - rewrite lookup_insert_eq. simpl. rewrite Hc, decide_False by done.
    by rewrite decide_True by left.
  - rewrite lookup_insert_ne by done. fold (count ticketCount q).
    rewrite Hc. destruct (decide (q ∈ seen)) as [Hq|Hq].
    + by rewrite decide_True by (by right).
    + rewrite decide_False; [done|]. by intros [->|?]%elem_of_cons.
Qed.

Lemma validateTickets_from_step ticketCount seen ticket tickets s d :
  counts_seen ticketCount seen →
  ticket_pair ticket = Some (s, d) →
  validateTickets_from ticketCount (ticket :: tickets) =
    if decide ((s, d) ∈ seen) then Err ErrMultipleSameDestination
    else validateTickets_from
           (<[(s, d) := count ticketCount (s, d) + 1]> ticketCount) tickets.
Proof.
  intros Hc [Hs Hd]%ticket_pair_index. simpl. rewrite Hs. simpl.
  rewrite Hd. simpl. unfold count at 1. rewrite lookup_insert_eq. simpl.
  rewrite Hc. destruct (decide ((s, d) ∈ seen)); by simpl.
Qed.

(** Without a repeated pair the scan runs to the end. *)
Lemma validateTickets_from_Ok ticketCount seen tickets :
  counts_seen ticketCount seen →
  well_formed tickets →
  NoDup (pairs tickets ++ seen) →
  ∃ ticketCount', validateTickets_from ticketCount tickets = Ok ticketCount'.
Proof.
  revert ticketCount seen.
  induction tickets as [|ticket tickets IH]; intros ticketCount seen Hc.
  { intros _ _. by eexists. }
  intros [(s & d & Hp) Hwf]%well_formed_cons.
  rewrite (pairs_cons _ _ _ _ Hp), <-app_comm_cons.
  intros [Hnotin Hnd]%NoDup_cons.
  rewrite (validateTickets_from_step _ seen _ _ s d Hc Hp).
  rewrite decide_False by (intros ?; apply Hnotin, elem_of_app; by right).
  apply (IH _ ((s, d) :: seen)).
  - apply counts_seen_insert; [done|].
    intros ?; apply Hnotin, elem_of_app; by right.
  - done.
  - apply NoDup_app. apply NoDup_app in Hnd as (Hnd1 & Hdisj & Hnd2).
    split_and!; [done | |].
    + intros p Hin [->|Hs]%elem_of_cons.
      * apply Hnotin, elem_of_app. by left.
      * by apply (Hdisj p).
    + apply NoDup_cons. split; [|done].
      intros ?; apply Hnotin, elem_of_app; by right.
Qed.

(** The scan stops with the error at the first ticket whose pair was seen
    before, whatever follows it. *)
Lemma validateTickets_from_repeat ticketCount seen front ticket rest :
  counts_seen ticketCount seen →
  well_formed (front ++ [ticket]) →
  (∃ p, ticket_pair ticket = Some p ∧ p ∈ pairs front ++ seen) →
  validateTickets_from ticketCount (front ++ ticket :: rest)
  = Err ErrMultipleSameDestination.
Proof.
  revert ticketCount seen.
  induction front as [|t front IH]; intros ticketCount seen Hc.
  - intros _ ([s d] & Hp & Hin). simpl app.
    rewrite (validateTickets_from_step _ seen _ _ s d Hc Hp).
    by rewrite decide_True.
  - rewrite <-!app_comm_cons.
    intros [(s & d & Hp) Hwf]%well_formed_cons (q & Hq & Hin).
    rewrite (validateTickets_from_step _ seen _ _ s d Hc Hp).
    destruct (decide ((s, d) ∈ seen)) as [|Hnotin]; [done|].
    apply (IH _ ((s, d) :: seen)).
    + by apply counts_seen_insert.
    + done.
    + exists q. split; [done|].
      rewrite (pairs_cons _ _ _ _ Hp), <-app_comm_cons in Hin.
      apply elem_of_cons in Hin as [->|Hin].
      * apply elem_of_app. right. by left.
      * apply elem_of_app in Hin as [?|?]; apply elem_of_app;
          [by left | right; by right].
Qed.

Lemma validateTickets_from_Ok_inv ticketCount seen tickets ticketCount' :
  counts_seen ticketCount seen →
  validateTickets_from ticketCount tickets = Ok ticketCount' →
  well_formed tickets ∧ (NoDup seen → NoDup (pairs tickets ++ seen)).
Proof.
  revert ticketCount seen.
  induction tickets as [|ticket tickets IH]; intros ticketCount seen Hc.
  { intros _. split; [constructor | done]. }
  destruct (ticket_pair ticket) as [[s d]|] eqn:Hp.
  - rewrite (validateTickets_from_step _ seen _ _ s d Hc Hp).
    destruct (decide ((s, d) ∈ seen)) as [|Hnotin]; [done|].
    intros Hrest.
    destruct (IH _ ((s, d) :: seen) (counts_seen_insert _ _ _ Hc Hnotin) Hrest)
      as [Hwf Hnd].
    split.
    + apply well_formed_cons. eauto.
    + intros Hseen. rewrite (pairs_cons _ _ _ _ Hp), <-app_comm_cons.
      assert (NoDup (pairs tickets ++ (s, d) :: seen)) as Hall.
      { apply Hnd, NoDup_cons. by split. }
      apply NoDup_app in Hall as (H1 & Hdisj & H2).
      apply NoDup_cons. split.
      * intros [Hin|Hin]%elem_of_app; [|done].
        apply (Hdisj _ Hin). by left.
      * apply NoDup_app. split_and!; [done | | done].
        intros p Hin Hin'. apply (Hdisj _ Hin). by right.
  - simpl. destruct (ticket_pair_None _ Hp) as [->|(s & -> & ->)]; by simpl.
Qed.

Lemma validateTickets_Ok tickets :
  well_formed tickets → NoDup (pairs tickets) →
  ∃ ticketCount, validateTickets tickets = Ok ticketCount.
Proof.
  intros Hwf Hnd. apply (validateTickets_from_Ok _ [] _ counts_seen_empty Hwf).
  by rewrite app_nil_r.
Qed.

Lemma validateTickets_Ok_inv tickets ticketCount :
  validateTickets tickets = Ok ticketCount →
  well_formed tickets ∧ NoDup (pairs tickets).
Proof.
  intros Hv.
  destruct (validateTickets_from_Ok_inv _ [] _ _ counts_seen_empty Hv)
    as [Hwf Hnd].
  split; [done|]. rewrite <-(app_nil_r (pairs tickets)). apply Hnd. constructor.
Qed.

(** A list with a repetition splits at its first repeated element. *)
Lemma not_NoDup_split {A} `{EqDecision A} (l : list A) :
  ¬ NoDup l → ∃ front x rest, l = front ++ x :: rest ∧ x ∈ front.
Proof.
  induction l as [|a l IH] using rev_ind; [intros []; constructor|].
  intros Hnd. destruct (decide (NoDup l)) as [Hl|Hl].
  - exists l, a, []. split; [done|].
    destruct (decide (a ∈ l)) as [|Hnotin]; [done|].
    destruct Hnd. apply NoDup_app. split_and!; [done | | apply NoDup_singleton].
    by intros x Hx ->%list_elem_of_singleton.
  - destruct (IH Hl) as (front & x & rest & -> & Hin).
    exists front, x, (rest ++ [a]). split; [|done].
    by rewrite <-app_assoc.
Qed.

Lemma pairs_app tickets1 tickets2 :
  pairs (tickets1 ++ tickets2) = pairs tickets1 ++ pairs tickets2.
Proof. apply omap_app. Qed.

Lemma validateTickets_repeated tickets :
  well_formed tickets → ¬ NoDup (pairs tickets) →
  validateTickets tickets = Err ErrMultipleSameDestination.
Proof.
  intros Hwf Hnd. destruct (not_NoDup_split _ Hnd) as (pf & p & pr & Hsplit & Hin).
  assert (∃ front ticket rest,
             tickets = front ++ ticket :: rest ∧ pairs front = pf
             ∧ ticket_pair ticket = Some p) as (front & ticket & rest & -> & <- & Hp).
  { clear Hnd Hin. revert pf Hsplit.
    induction tickets as [|t tickets IH]; intros pf Hsplit.
    { by destruct pf. }
    apply well_formed_cons in Hwf as [(s & d & Hp) Hwf].
    rewrite (pairs_cons _ _ _ _ Hp) in Hsplit.
    destruct pf as [|q pf]; simpl in Hsplit.
    - injection Hsplit as <- _. by exists [], t, tickets.
    - injection Hsplit as <- Hsplit.
      destruct (IH Hwf _ Hsplit) as (front & ticket & rest & -> & <- & Hq).
      exists (t :: front), ticket, rest. split_and!; [done | | done].
      by rewrite (pairs_cons _ _ _ _ Hp). }
  apply (validateTickets_from_repeat _ [] _ _ _ counts_seen_empty).
  - apply well_formed_app in Hwf as [Hf Hr].
    apply well_formed_app. split; [done|].
    apply well_formed_cons in Hr as [? _]. apply well_formed_cons.
    split; [done | constructor].
  - exists p. split; [done|]. by rewrite app_nil_r.
Qed.

(** ** Descending order *)

Lemma sort_desc_Sorted l : Sorted desc (sort_desc l).
Proof. apply (Sorted_merge_sort desc). Qed.

Lemma sort_desc_StronglySorted l : StronglySorted desc (sort_desc l).
Proof. apply (StronglySorted_merge_sort desc). Qed.

Lemma sort_desc_Permutation l : sort_desc l ≡ₚ l.
Proof. apply (merge_sort_Permutation desc). Qed.

(** Any descending arrangement of [l] is [sort_desc l]: the result of
    [sort.Slice] does not depend on how it sorts. *)
Lemma sort_desc_unique l l' : l' ≡ₚ l → Sorted desc l' → l' = sort_desc l.
Proof.
  intros Hperm Hsorted. apply (Sorted_unique desc); [done | | ].
  - apply sort_desc_Sorted.
  - by rewrite sort_desc_Permutation.
Qed.

Lemma sort_desc_idemp l : sort_desc (sort_desc l) = sort_desc l.
Proof.
  symmetry. apply sort_desc_unique; [done | apply sort_desc_Sorted].
Qed.


Lemma sort_desc_nil : sort_desc [] = [].
Proof. reflexivity. Qed.

Lemma elem_of_sort_desc x l : x ∈ sort_desc l ↔ x ∈ l.
Proof. by rewrite sort_desc_Permutation. Qed.

(** ** buildGraph *)

Lemma buildGraph_fill_cons t ticket tickets s d :
  ticket_pair ticket = Some (s, d) →
  buildGraph_fill t (ticket :: tickets)
  = buildGraph_fill (add_ticket t (s, d)) tickets.
Proof.
  intros [Hs Hd]%ticket_pair_index. simpl. rewrite Hs. simpl. by rewrite Hd.
Qed.

Lemma buildGraph_fill_pairs t tickets :
  well_formed tickets →
  buildGraph_fill t tickets = Ok (foldl add_ticket t (pairs tickets)).
Proof.
  revert t. induction tickets as [|ticket tickets IH]; intros t; [done|].
  intros [(s & d & Hp) Hwf]%well_formed_cons.
  rewrite (buildGraph_fill_cons _ _ _ _ _ Hp), (pairs_cons _ _ _ _ Hp).
  by apply IH.
Qed.

Lemma buildGraph_fill_outcome t tickets :
  (well_formed tickets ∧ ∃ t', buildGraph_fill t tickets = Ok t')
  ∨ (¬ well_formed tickets ∧ buildGraph_fill t tickets = Panic).
Proof.
  revert t. induction tickets as [|ticket tickets IH]; intros t.
  { left. split; [constructor | by eexists]. }
  destruct (ticket_pair ticket) as [[s d]|] eqn:Hp.
  - rewrite (buildGraph_fill_cons _ _ _ _ _ Hp).
    destruct (IH (add_ticket t (s, d))) as [[Hwf Hok]|[Hwf Hpanic]].
    + left. split; [|done]. apply well_formed_cons. eauto.
    + right. split; [|done]. by intros [_ ?]%well_formed_cons.
  - right. split.
    + intros [(s & d & Hp') _]%well_formed_cons. congruence.
    + simpl. destruct (ticket_pair_None _ Hp) as [->|(s & -> & ->)]; by simpl.
Qed.

Lemma tables_of_pairs tickets :
  well_formed tickets →
  tables_of tickets = foldl add_ticket (Tables ∅ ∅ ∅) (pairs tickets).
Proof.
  intros Hwf. unfold tables_of. by rewrite buildGraph_fill_pairs.
Qed.

Lemma adj_insert graph k dests u :
  adj (<[k := dests]> graph) u = if decide (k = u) then dests else adj graph u.
Proof.
  unfold adj. rewrite lookup_insert. by destruct (decide (k = u)).
Qed.

Lemma count_insert `{Countable K} (m : gmap K Z) k n u :
  count (<[k := n]> m) u = if decide (k = u) then n else count m u.
Proof.
  unfold count. rewrite lookup_insert. by destruct (decide (k = u)).
Qed.

Lemma count_empty `{Countable K} (u : K) : count ∅ u = 0.
Proof. unfold count. by rewrite lookup_empty. Qed.

Lemma adj_empty u : adj ∅ u = [].
Proof. unfold adj. by rewrite lookup_empty. Qed.

Section fill.
Implicit Types (t : tables) (ps : list (string * string)).

Lemma fill_adj t ps u :
  adj (t_graph (foldl add_ticket t ps)) u
  = adj (t_graph t) u ++ (filter (λ p, p.1 = u) ps).*2.
Proof.
  revert t. induction ps as [|p ps IH]; intros t; simpl.
  { by rewrite app_nil_r. }
  rewrite IH. simpl. rewrite adj_insert, filter_cons.
  destruct (decide (p.1 = u)) as [->|Hne]; simpl; [|done].
  by rewrite <-app_assoc.
Qed.

Lemma fill_out t ps u :
  count (t_out (foldl add_ticket t ps)) u
  = count (t_out t) u + Z.of_nat (length (filter (λ p, p.1 = u) ps)).
Proof.
  revert t. induction ps as [|p ps IH]; intros t; simpl; [lia|].
  rewrite IH. simpl. rewrite count_insert, filter_cons.
  destruct (decide (p.1 = u)) as [->|Hne]; simpl; lia.
Qed.

Lemma fill_in t ps v :
  count (t_in (foldl add_ticket t ps)) v
  = count (t_in t) v + Z.of_nat (length (filter (λ p, p.2 = v) ps)).
Proof.
  revert t. induction ps as [|p ps IH]; intros t; simpl; [lia|].
  rewrite IH. simpl. rewrite count_insert, filter_cons.
  destruct (decide (p.2 = v)) as [->|Hne]; simpl; lia.
Qed.

Lemma fill_dom_graph t ps :
  dom (t_graph (foldl add_ticket t ps))
  = dom (t_graph t) ∪ list_to_set ps.*1.
Proof.
  revert t. induction ps as [|p ps IH]; intros t; simpl.
  { set_solver. }
  rewrite IH. simpl. rewrite dom_insert_L. set_solver.
Qed.

Lemma fill_dom_out t ps :
  dom (t_out (foldl add_ticket t ps)) = dom (t_out t) ∪ list_to_set ps.*1.
Proof.
  revert t. induction ps as [|p ps IH]; intros t; simpl.
  { set_solver. }
  rewrite IH. simpl. rewrite dom_insert_L. set_solver.
Qed.

Lemma fill_dom_in t ps :
  dom (t_in (foldl add_ticket t ps)) = dom (t_in t) ∪ list_to_set ps.*2.
Proof.
  revert t. induction ps as [|p ps IH]; intros t; simpl.
  { set_solver. }
  rewrite IH. simpl. rewrite dom_insert_L. set_solver.
Qed.

End fill.

(** The counters never exceed the number of tickets, so the Go [int]
    increments cannot wrap. *)
Lemma fill_counts_bounded tickets u :
  well_formed tickets →
  0 ≤ count (t_out (tables_of tickets)) u ≤ Z.of_nat (length tickets)
  ∧ 0 ≤ count (t_in (tables_of tickets)) u ≤ Z.of_nat (length tickets).
Proof.
  intros Hwf. rewrite tables_of_pairs, fill_out, fill_in by done. simpl.
  rewrite !count_empty, <-(pairs_length tickets Hwf).
  pose proof (length_filter (λ p : string * string, p.1 = u) (pairs tickets)).
  pose proof (length_filter (λ p : string * string, p.2 = u) (pairs tickets)).
  lia.
Qed.


Lemma buildGraph_sort_lookup srcs graph k :
  buildGraph_sort srcs graph !! k
  = if decide (k ∈ srcs) then sort_desc <$> graph !! k else graph !! k.
Proof.
  unfold buildGraph_sort. revert graph.
  induction srcs as [|src srcs IH]; intros graph; simpl.
  { destruct (decide (k ∈ [])) as [Hin|]; [|done]. by apply not_elem_of_nil in Hin. }
  rewrite IH, lookup_alter.
  destruct (decide (k ∈ srcs)) as [Hin|Hnotin].
  - rewrite (decide_True (P := k ∈ src :: srcs)) by (apply elem_of_cons; by right).
    destruct (decide (src = k)) as [<-|]; [|done].
    destruct (graph !! src); simpl; [|done]. by rewrite sort_desc_idemp.
  - destruct (decide (src = k)) as [<-|Hne].
    + by rewrite decide_True by (apply elem_of_cons; by left).
    + rewrite decide_False; [done|]. by intros [->|?]%elem_of_cons.
Qed.

Lemma buildGraph_sort_adj srcs graph k :
  adj (buildGraph_sort srcs graph) k
  = if decide (k ∈ srcs) then sort_desc (adj graph k) else adj graph k.
Proof.
  unfold adj. rewrite buildGraph_sort_lookup.
  destruct (decide (k ∈ srcs)); [|done]. by destruct (graph !! k).
Qed.


Lemma buildGraph_sort_elem_of srcs graph k v :
  v ∈ adj (buildGraph_sort srcs graph) k ↔ v ∈ adj graph k.
Proof.
  rewrite buildGraph_sort_adj. destruct (decide (k ∈ srcs)); [|done].
  apply elem_of_sort_desc.
Qed.

(** With every key visited, each adjacency list is sorted. *)
Lemma buildGraph_sort_ranges srcs graph :
  ranges graph srcs → buildGraph_sort srcs graph = sort_desc <$> graph.
Proof.
  intros Hr. apply map_eq. intros k.
  rewrite buildGraph_sort_lookup, lookup_fmap.
  destruct (decide (k ∈ srcs)) as [|Hnotin]; [done|].
  destruct (graph !! k) as [dests|] eqn:Hk; [|done].
  destruct Hnotin. unfold ranges in Hr. rewrite Hr.
  apply elem_of_elements, elem_of_dom. by eexists.
Qed.

(** ** Degree imbalances *)

Section degrees.
Variables outDegree inDegree : gmap string Z.

Lemma findStartingPoint_scan_valid nodes startCandidates :
  Forall (λ node, ¬ (unbalanced outDegree inDegree) node) nodes →
  findStartingPoint_scan nodes outDegree inDegree startCandidates
  = (startCandidates ++ filter (start_candidate outDegree inDegree) nodes, true).
Proof.
  revert startCandidates.
  induction nodes as [|node nodes IH]; intros startCandidates Hall; simpl.
  { by rewrite app_nil_r. }
  apply Forall_cons in Hall as [Hnode Hall]. unfold unbalanced in Hnode.
  rewrite filter_cons. unfold start_candidate at 1.
  destruct (Z.eqb_spec (count outDegree node - count inDegree node) 1)
    as [Heq|Hne].
  - rewrite decide_True by done. rewrite IH by done. by rewrite <-app_assoc.
  - rewrite decide_False by done.
    assert ((count outDegree node - count inDegree node <? -1)
            || (1 <? count outDegree node - count inDegree node) = false) as ->.
    { apply orb_false_intro; [apply Z.ltb_ge | apply Z.ltb_ge]; lia. }
    by apply IH.
Qed.

Lemma findStartingPoint_scan_invalid nodes startCandidates :
  Exists (unbalanced outDegree inDegree) nodes →
  (findStartingPoint_scan nodes outDegree inDegree startCandidates).2 = false.
Proof.
  revert startCandidates.
  induction nodes as [|node nodes IH]; intros startCandidates Hex; simpl.
  { by apply Exists_nil in Hex. }
  destruct (Z.eqb_spec (count outDegree node - count inDegree node) 1)
    as [Heq|Hne].
  - apply Exists_cons in Hex as [Hnode|Hex]; [|by apply IH].
    unfold unbalanced in Hnode. lia.
  - destruct ((count outDegree node - count inDegree node <? -1)
              || (1 <? count outDegree node - count inDegree node)) eqn:Hb;
      [done|].
    apply Exists_cons in Hex as [Hnode|Hex]; [|by apply IH].
    apply orb_false_elim in Hb as [H1%Z.ltb_ge H2%Z.ltb_ge].
    unfold unbalanced in Hnode. lia.
Qed.

Lemma findStartingPoint_balanced_then nodes :
  (_ ← findStartingPoint_balanced nodes outDegree inDegree;
   @Err string ErrDifferentStartingPoints)
  = Err ErrDifferentStartingPoints.
Proof.
  induction nodes as [|node nodes IH]; simpl; [done|].
  by destruct (negb (count outDegree node =? count inDegree node)).
Qed.

(** [findStartingPoint] without its loops. *)
Lemma findStartingPoint_spec nodes1 nodes2 :
  findStartingPoint nodes1 nodes2 outDegree inDegree =
    if decide (Exists (unbalanced outDegree inDegree) nodes1) then Err ErrDifferentStartingPoints
    else match filter (start_candidate outDegree inDegree) nodes1 with
         | [start] => Ok start
         | _ => Err ErrDifferentStartingPoints
         end.
Proof.
  unfold findStartingPoint.
  destruct (decide (Exists (unbalanced outDegree inDegree) nodes1)) as [Hex|Hall].
  - pose proof (findStartingPoint_scan_invalid nodes1 [] Hex) as Hscan.
    destruct (findStartingPoint_scan nodes1 outDegree inDegree [])
      as [startCandidates validStart].
    simpl in Hscan. by subst validStart.
  - apply not_Exists_Forall in Hall; [|apply _].
    rewrite findStartingPoint_scan_valid by done. simpl.
    destruct (filter (start_candidate outDegree inDegree) nodes1) as [|start [|start' rest]];
      simpl; [|done|done].
    apply findStartingPoint_balanced_then.
Qed.

Lemma validateEndPoints_scan_valid nodes endCandidates :
  Forall (λ node, ¬ (unbalanced outDegree inDegree) node) nodes →
  validateEndPoints_scan nodes outDegree inDegree endCandidates
  = Ok (endCandidates + Z.of_nat (length (filter (end_candidate outDegree inDegree) nodes))).
Proof.
  revert endCandidates.
  induction nodes as [|node nodes IH]; intros endCandidates Hall; simpl.
  { by rewrite Z.add_0_r. }
  apply Forall_cons in Hall as [Hnode Hall]. unfold unbalanced in Hnode.
  rewrite filter_cons. unfold end_candidate at 1.
  destruct (Z.eqb_spec (count inDegree node - count outDegree node) 1)
    as [Heq|Hne].
  - rewrite decide_True by done. rewrite IH by done. simpl length.
    f_equal. lia.
  - rewrite decide_False by done.
    assert ((count inDegree node - count outDegree node <? -1)
            || (1 <? count inDegree node - count outDegree node) = false) as ->.
    { apply orb_false_intro; [apply Z.ltb_ge | apply Z.ltb_ge]; lia. }
    by apply IH.
Qed.

Lemma validateEndPoints_scan_invalid nodes endCandidates :
  Exists (unbalanced outDegree inDegree) nodes →
  validateEndPoints_scan nodes outDegree inDegree endCandidates
  = Err ErrDifferentStartingPoints.
Proof.
  revert endCandidates.
  induction nodes as [|node nodes IH]; intros endCandidates Hex; simpl.
  { by apply Exists_nil in Hex. }
  destruct (Z.eqb_spec (count inDegree node - count outDegree node) 1)
    as [Heq|Hne].
  - apply Exists_cons in Hex as [Hnode|Hex]; [|by apply IH].
    unfold unbalanced in Hnode. lia.
  - destruct ((count inDegree node - count outDegree node <? -1)
              || (1 <? count inDegree node - count outDegree node)) eqn:Hb;
      [done|].
    apply Exists_cons in Hex as [Hnode|Hex]; [|by apply IH].
    apply orb_false_elim in Hb as [H1%Z.ltb_ge H2%Z.ltb_ge].
    unfold unbalanced in Hnode. lia.
Qed.

(** [validateEndPoints] without its loop. *)
Lemma validateEndPoints_spec nodes startCandidates :
  validateEndPoints nodes startCandidates outDegree inDegree =
    if decide (Exists (unbalanced outDegree inDegree) nodes) then Err ErrDifferentStartingPoints
    else if decide (length startCandidates = 1%nat
                    ∧ length (filter (end_candidate outDegree inDegree) nodes) ≠ 1%nat)
         then Err ErrDifferentStartingPoints
         else Ok ().
Proof.
  unfold validateEndPoints.
  destruct (decide (Exists (unbalanced outDegree inDegree) nodes)) as [Hex|Hall].
  - by rewrite validateEndPoints_scan_invalid.
  - apply not_Exists_Forall in Hall; [|apply _].
    rewrite validateEndPoints_scan_valid by done. simpl.
    destruct (Nat.eqb_spec (length startCandidates) 1) as [Hone|Hne]; simpl.
    + destruct (Z.eqb_spec
                  (0 + Z.of_nat (length (filter (end_candidate outDegree inDegree) nodes))) 1)
        as [He|He]; simpl.
      * rewrite decide_False; [done|]. intros [_ ?]. lia.
      * rewrite decide_True; [done|]. split; [done | lia].
    + rewrite decide_False; [done|]. by intros [? _].
Qed.

Lemma findStartingPoint_Permutation nodes1 nodes1' nodes2 nodes2' :
  nodes1 ≡ₚ nodes1' →
  findStartingPoint nodes1 nodes2 outDegree inDegree
  = findStartingPoint nodes1' nodes2' outDegree inDegree.
Proof.
  intros Hperm. rewrite !findStartingPoint_spec.
  assert (Exists (unbalanced outDegree inDegree) nodes1 ↔ Exists (unbalanced outDegree inDegree) nodes1') as Hex.
  { rewrite !Exists_exists. by setoid_rewrite Hperm. }
  destruct (decide (Exists (unbalanced outDegree inDegree) nodes1)) as [H1|H1],
           (decide (Exists (unbalanced outDegree inDegree) nodes1')) as [H2|H2];
    [done | tauto | tauto |].
  assert (filter (start_candidate outDegree inDegree) nodes1 ≡ₚ filter (start_candidate outDegree inDegree) nodes1')
    as Hf by (by rewrite Hperm).
  destruct (filter (start_candidate outDegree inDegree) nodes1) as [|a [|a' l]].
  - by apply Permutation_nil_l in Hf as <-.
  - by apply Permutation_singleton_l in Hf as <-.
  - pose proof (Permutation_length Hf) as Hlen.
    destruct (filter (start_candidate outDegree inDegree) nodes1') as [|b [|b' l']];
      simpl in Hlen; [lia | lia | done].
Qed.

Lemma validateEndPoints_Permutation nodes nodes' startCandidates :
  nodes ≡ₚ nodes' →
  validateEndPoints nodes startCandidates outDegree inDegree
  = validateEndPoints nodes' startCandidates outDegree inDegree.
Proof.
  intros Hperm. rewrite !validateEndPoints_spec.
  assert (Exists (unbalanced outDegree inDegree) nodes ↔ Exists (unbalanced outDegree inDegree) nodes') as Hex.
  { rewrite !Exists_exists. by setoid_rewrite Hperm. }
  assert (length (filter (end_candidate outDegree inDegree) nodes)
          = length (filter (end_candidate outDegree inDegree) nodes')) as Hlen
    by (by rewrite Hperm).
  rewrite Hlen.
  destruct (decide (Exists (unbalanced outDegree inDegree) nodes)) as [H1|H1],
           (decide (Exists (unbalanced outDegree inDegree) nodes')) as [H2|H2];
    [done | tauto | tauto | done].
Qed.
End degrees.

(** ** The order of the map iterations does not matter *)

Lemma buildGraph_well_formed srcs tickets :
  well_formed tickets →
  buildGraph srcs tickets
  = Ok {| t_graph := buildGraph_sort srcs (t_graph (tables_of tickets));
          t_out := t_out (tables_of tickets);
          t_in := t_in (tables_of tickets) |}.
Proof.
  intros Hwf. unfold buildGraph, tables_of.
  by rewrite buildGraph_fill_pairs.
Qed.

Lemma schedule_of_admissible tickets : admissible tickets (schedule_of tickets).
Proof. unfold admissible, ranges. by simpl. Qed.

Lemma schedule_irrelevant tickets sch1 sch2 :
  admissible tickets sch1 → admissible tickets sch2 →
  ReconstructItinerary_in sch1 tickets = ReconstructItinerary_in sch2 tickets.
Proof.
  intros (Hs1 & Ha1 & Hb1 & He1) (Hs2 & Ha2 & Hb2 & He2).
  unfold ReconstructItinerary_in.
  destruct (length tickets =? 0)%nat; [done|].
  destruct (validateTickets tickets) as [ticketCount| | |] eqn:Hv; try done.
  apply validateTickets_Ok_inv in Hv as [Hwf _]. simpl.
  rewrite !buildGraph_well_formed by done. simpl.
  rewrite (buildGraph_sort_ranges _ _ Hs1), (buildGraph_sort_ranges _ _ Hs2).
  rewrite (findStartingPoint_Permutation _ _ (s_start sch1) (s_start sch2)
             (s_balanced sch1) (s_balanced sch2)).
  2:{ unfold ranges in *. by rewrite Ha1, Ha2. }
  destruct (findStartingPoint _ _ _ _) as [start| | |]; try done. simpl.
  rewrite (validateEndPoints_Permutation _ _ (s_end sch1) (s_end sch2)).
  2:{ unfold ranges in *. by rewrite He1, He2. }
  done.
Qed.

Lemma ReconstructItinerary_in_admissible tickets sch :
  admissible tickets sch →
  ReconstructItinerary_in sch tickets = ReconstructItinerary tickets.
Proof.
  intros Hsch. apply schedule_irrelevant; [done|].
  apply schedule_of_admissible.
Qed.

(** ** What the walk visits *)

Section walk_invariant.
Variable graph0 : gmap string (list string).
Variable start : string.

Lemma walk_inv_init : walk_inv graph0 start (Walk graph0 [start] []).
Proof.
  split; simpl.
  - intros u. exists []. split; [by rewrite app_nil_r|].
    intros v Hv. by apply not_elem_of_nil in Hv.
  - intros u Hu. by apply not_elem_of_nil in Hu.
  - done.
  - intros u [Hu|Hu].
    + apply list_elem_of_singleton in Hu as ->. done.
    + by apply not_elem_of_nil in Hu.
  - left. by apply list_elem_of_singleton.
  - done.
Qed.

Lemma walk_inv_step w w' : walk_inv graph0 start w → walk_step w w' → walk_inv graph0 start w'.
Proof.
  intros [Hcons Hret Htouch Hreach Hstart Hhead] Hstep.
  destruct Hstep as [graph stack curr dests nextDest result Hcurr
                    |graph stack curr result Hadj];
    simpl in *.
  - assert (adj graph curr = dests ++ [nextDest]) as Hadj
      by (unfold adj; by rewrite Hcurr).
    assert (∀ u, seen (Walk graph (stack ++ [curr]) result) u →
                 seen (Walk (<[curr:=dests]> graph)
                            ((stack ++ [curr]) ++ [nextDest]) result) u)
      as Hmono.
    { intros u [Hu|Hu]; [left|by right]. simpl in *.
      apply elem_of_app. by left. }
    split; simpl.
    + intros u. destruct (Hcons u) as (used & Hused & Hseen).
      rewrite adj_insert. destruct (decide (curr = u)) as [<-|Hne].
      * exists (nextDest :: used). split.
        { rewrite Hused, Hadj. by rewrite <-app_assoc. }
        intros v [->|Hv]%elem_of_cons; [|by apply Hmono, Hseen].
        left. simpl. apply elem_of_app. right. by apply list_elem_of_singleton.
      * exists used. split; [done|]. intros v Hv. by apply Hmono, Hseen.
    + intros u Hu. rewrite adj_insert.
      destruct (decide (curr = u)) as [<-|Hne]; [|by apply Hret].
      apply Hret in Hu. rewrite Hadj in Hu. by destruct dests.
    + intros u. rewrite adj_insert.
      destruct (decide (curr = u)) as [<-|Hne].
      * intros _. left. simpl. rewrite !elem_of_app.
        left. right. by apply list_elem_of_singleton.
      * intros Hu. by apply Hmono, Htouch.
    + intros u [Hu|Hu]; simpl in *.
      * apply elem_of_app in Hu as [Hu|Hu]; [apply Hreach; by left|].
        apply list_elem_of_singleton in Hu as ->.
        eapply rtc_r.
        { apply Hreach. left. simpl. apply elem_of_app. right.
          by apply list_elem_of_singleton. }
        unfold graph_edge. destruct (Hcons curr) as (used & -> & _).
        rewrite Hadj, !elem_of_app. left. right.
        by apply list_elem_of_singleton.
      * apply Hreach. by right.
    + by apply Hmono.
    + rewrite <-Hhead. rewrite <-!app_assoc. by destruct stack.
  - assert (∀ u, seen (Walk graph (stack ++ [curr]) result) u →
                 seen (Walk graph stack (result ++ [curr])) u) as Hmono.
    { intros u [Hu|Hu]; simpl in *.
      - apply elem_of_app in Hu as [Hu|Hu]; [by left|].
        right. simpl. apply elem_of_app. by right.
      - right. simpl. apply elem_of_app. by left. }
    assert (∀ u, seen (Walk graph stack (result ++ [curr])) u →
                 seen (Walk graph (stack ++ [curr]) result) u) as Hanti.
    { intros u [Hu|Hu]; simpl in *.
      - left. simpl. apply elem_of_app. by left.
      - apply elem_of_app in Hu as [Hu|Hu]; [by right|].
        left. simpl. apply elem_of_app. by right. }
    split; simpl.
    + intros u. destruct (Hcons u) as (used & Hused & Hseen).
      exists used. split; [done|]. intros v Hv. by apply Hmono, Hseen.
    + intros u [Hu|Hu]%elem_of_app; [by apply Hret|].
      by apply list_elem_of_singleton in Hu as ->.
    + intros u Hu. by apply Hmono, Htouch.
    + intros u Hu. by apply Hreach, Hanti.
    + by apply Hmono.
    + rewrite <-Hhead. rewrite reverse_snoc. by rewrite <-app_assoc.
Qed.

Lemma walk_inv_steps n w w' :
  walk_inv graph0 start w → findPath_steps n w = Some w' → walk_inv graph0 start w'.
Proof.
  revert w. induction n as [|n IH]; intros w Hinv; simpl.
  { by intros [= <-]. }
  destruct (findPath_step w) as [w1|] eqn:Hstep; [|done]. simpl.
  apply IH. apply (walk_inv_step w); [done|].
  by apply findPath_step_walk_step.
Qed.

(** When the loop is left, everything reachable from the start is retired
    and has no edge left. *)
Lemma walk_inv_exit_reach w u :
  walk_inv graph0 start w → w_stack w = [] →
  rtc (graph_edge graph0) start u → u ∈ w_result w.
Proof.
  intros [Hcons Hret Htouch Hreach Hstart Hhead] Hnil. revert u.
  apply rtc_ind_r.
  - destruct Hstart as [Hs|Hs]; [|done].
    rewrite Hnil in Hs. by apply not_elem_of_nil in Hs.
  - intros v u Hv Hedge IH.
    destruct (Hcons v) as (used & Hused & Hseen).
    rewrite (Hret _ IH) in Hused. simpl in Hused.
    unfold graph_edge in Hedge. rewrite Hused in Hedge.
    destruct (Hseen _ Hedge) as [Hs|Hs]; [|done].
    rewrite Hnil in Hs. by apply not_elem_of_nil in Hs.
Qed.

Lemma walk_inv_exit_edges w :
  walk_inv graph0 start w → w_stack w = [] →
  edges (w_graph w) = 0%nat ↔
  ∀ u, adj graph0 u ≠ [] → rtc (graph_edge graph0) start u.
Proof.
  intros Hinv Hnil. rewrite edges_zero. split.
  - intros Hall u Hu. apply (inv_reach graph0 start w Hinv), (inv_touched graph0 start w Hinv).
    by rewrite Hall.
  - intros Hall u.
    destruct (decide (adj graph0 u = [])) as [Hu|Hu].
    + destruct (inv_consumed graph0 start w Hinv u) as (used & Hused & _).
      rewrite Hu in Hused. symmetry in Hused.
      by apply app_eq_nil in Hused as [? _].
    + apply (inv_retired graph0 start w Hinv), walk_inv_exit_reach; auto.
Qed.
End walk_invariant.

(** [findPath] always returns; its result starts at [start], has one stop
    more than the number of edges the walk consumed, and that is all the
    edges exactly when every node with an outgoing edge can be reached from
    [start]. *)
Lemma findPath_spec start graph :
  ∃ result,
    findPath start graph = Ok result
    ∧ head result = Some start
    ∧ (length result ≤ edges graph + 1)%nat
    ∧ ((length result = edges graph + 1)%nat ↔
       ∀ u, adj graph u ≠ [] → rtc (graph_edge graph) start u).
Proof.
  destruct (findPath_loop_terminates (2 * edges graph + 1)
              (Walk graph [start] [])) as (w & Hloop & Hsteps & Hnil & Htot).
  { unfold walk_measure. simpl. lia. }
  pose proof (walk_inv_steps graph start _ _ _
                (walk_inv_init graph start) Hsteps) as Hinv.
  exists (reverse (w_result w)). unfold findPath. rewrite Hloop.
  rewrite reverse_slice_reverse. split; [done|].
  unfold walk_total in Htot. simpl in Htot. rewrite Hnil in Htot. simpl in Htot.
  rewrite length_reverse. split_and!.
  - pose proof (inv_head _ _ _ Hinv) as Hhead. by rewrite Hnil in Hhead.
  - lia.
  - rewrite <-(walk_inv_exit_edges graph start w Hinv Hnil). lia.
Qed.

(** ** The graph of a ticket list *)

Lemma graph_of_edge srcs tickets u v :
  well_formed tickets →
  graph_edge (graph_of srcs tickets) u v ↔ flies tickets u v.
Proof.
  intros Hwf. unfold graph_edge, graph_of, flies.
  rewrite buildGraph_sort_elem_of, tables_of_pairs, fill_adj by done.
  simpl. rewrite adj_empty, app_nil_l, list_elem_of_fmap. split.
  - intros ([s d] & -> & [Hs Hin]%list_elem_of_filter). simpl in *. by subst.
  - intros Hin. exists (u, v). split; [done|].
    by apply list_elem_of_filter.
Qed.




(** ** The stages of ReconstructItinerary *)

Lemma cycle_check_spec result :
  cycle_check result =
    if decide ((2 ≤ length result)%nat ∧ head result = last result)
    then Err ErrCycleInItinerary else Ok result.
Proof.
  unfold cycle_check. rewrite head_lookup, last_lookup.
  destruct (Nat.leb_spec 2 (length result)) as [Hlen|Hlen].
  - replace (pred (length result)) with (length result - 1)%nat by lia.
    unfold index.
    destruct (lookup_lt_is_Some_2 result 0) as [first Hfirst]; [lia|].
    destruct (lookup_lt_is_Some_2 result (length result - 1)) as [final Hfinal];
      [lia|].
    rewrite Hfirst, Hfinal. simpl.
    destruct (String.eqb_spec first final) as [->|Hne].
    + by rewrite decide_True.
    + rewrite decide_False; [done|]. intros [_ [=]]. done.
  - rewrite decide_False; [done|]. intros [? _]. lia.
Qed.

Lemma bind_Ok {A B} (f : A → outcome B) (a : A) : (Ok a ≫= f) = f a.
Proof. reflexivity. Qed.

Lemma ReconstructItinerary_in_cons sch ticket tickets :
  ReconstructItinerary_in sch (ticket :: tickets) =
    (_ ← validateTickets (ticket :: tickets);
     t ← buildGraph (s_sort sch) (ticket :: tickets);
     start ← findStartingPoint (s_start sch) (s_balanced sch) (t_out t) (t_in t);
     _ ← validateEndPoints (s_end sch) [start] (t_out t) (t_in t);
     result ← findPath start (t_graph t);
     cycle_check result).
Proof. reflexivity. Qed.

(** After the validator, the call is the endpoint resolver followed by the
    walk and the closing test. *)
Lemma ReconstructItinerary_in_valid sch tickets :
  tickets ≠ [] → well_formed tickets → NoDup (pairs tickets) →
  ReconstructItinerary_in sch tickets =
    (start ← findStartingPoint (s_start sch) (s_balanced sch)
               (t_out (tables_of tickets)) (t_in (tables_of tickets));
     _ ← validateEndPoints (s_end sch) [start]
            (t_out (tables_of tickets)) (t_in (tables_of tickets));
     result ← findPath start (graph_of (s_sort sch) tickets);
     cycle_check result).
Proof.
  intros Hne Hwf Hnd. unfold ReconstructItinerary_in.
  destruct tickets as [|ticket tickets]; [done|]. simpl length. simpl Nat.eqb.
  cbv iota.
  destruct (validateTickets_Ok _ Hwf Hnd) as [ticketCount ->]. simpl.
  rewrite buildGraph_well_formed by done. by simpl.
Qed.




(** ** The degree tables of a ticket list *)

Lemma tables_out_count tickets u :
  well_formed tickets →
  count (t_out (tables_of tickets)) u = Z.of_nat (out_degree tickets u).
Proof.
  intros Hwf. rewrite tables_of_pairs, fill_out by done. simpl.
  by rewrite count_empty.
Qed.

Lemma tables_in_count tickets u :
  well_formed tickets →
  count (t_in (tables_of tickets)) u = Z.of_nat (in_degree tickets u).
Proof.
  intros Hwf. rewrite tables_of_pairs, fill_in by done. simpl.
  by rewrite count_empty.
Qed.

Lemma filter_length_pos {A} (P : A → Prop) `{!∀ x, Decision (P x)} (l : list A) :
  (0 < length (filter P l))%nat ↔ ∃ x, x ∈ l ∧ P x.
Proof.
  split.
  - destruct (filter P l) as [|x l'] eqn:Hf; simpl; [lia|]. intros _.
    assert (x ∈ filter P l) as Hx by (rewrite Hf; by left).
    apply list_elem_of_filter in Hx as [? ?]. eauto.
  - intros (x & Hx & HP).
    assert (x ∈ filter P l) as Hin by (by apply list_elem_of_filter).
    destruct (filter P l); [by apply not_elem_of_nil in Hin | simpl; lia].
Qed.

Lemma tables_out_dom tickets u :
  well_formed tickets →
  u ∈ dom (t_out (tables_of tickets)) ↔ (0 < out_degree tickets u)%nat.
Proof.
  intros Hwf. rewrite tables_of_pairs, fill_dom_out by done. simpl.
  unfold out_degree. rewrite filter_length_pos.
  rewrite dom_empty_L, elem_of_union, elem_of_list_to_set, list_elem_of_fmap.
  split.
  - intros [Hu|(p & -> & Hp)]; [by apply not_elem_of_empty in Hu | eauto].
  - intros (p & Hp & <-). right. eauto.
Qed.

Lemma tables_in_dom tickets u :
  well_formed tickets →
  u ∈ dom (t_in (tables_of tickets)) ↔ (0 < in_degree tickets u)%nat.
Proof.
  intros Hwf. rewrite tables_of_pairs, fill_dom_in by done. simpl.
  unfold in_degree. rewrite filter_length_pos.
  rewrite dom_empty_L, elem_of_union, elem_of_list_to_set, list_elem_of_fmap.
  split.
  - intros [Hu|(p & -> & Hp)]; [by apply not_elem_of_empty in Hu | eauto].
  - intros (p & Hp & <-). right. eauto.
Qed.

(** Two duplicate-free lists with the same members that satisfy [P]. *)
Lemma filter_Permutation_NoDup {A} (P : A → Prop) `{!∀ x, Decision (P x)}
    (l1 l2 : list A) :
  NoDup l1 → NoDup l2 →
  (∀ x, P x → x ∈ l1 ↔ x ∈ l2) →
  filter P l1 ≡ₚ filter P l2.
Proof.
  intros Hnd1 Hnd2 Hiff. apply NoDup_Permutation.
  - by apply NoDup_filter.
  - by apply NoDup_filter.
  - intros x. rewrite !list_elem_of_filter. split; intros [HP Hx];
      (split; [done|]); by apply (Hiff x HP).
Qed.

Section resolver.
Variable tickets : list (list string).
Hypothesis Hwf : well_formed tickets.

Notation outDegree := (t_out (tables_of tickets)).
Notation inDegree := (t_in (tables_of tickets)).

Lemma start_candidates_nodes keys :
  ranges outDegree keys →
  filter (start_candidate outDegree inDegree) keys
  ≡ₚ filter (start_candidate outDegree inDegree) (nodes_of tickets).
Proof.
  intros Hr. unfold ranges in Hr. rewrite Hr. unfold nodes_of.
  apply filter_Permutation_NoDup; [apply NoDup_elements..|].
  intros u Hu. rewrite !elem_of_elements, elem_of_union.
  split; [by left|]. intros [?|Hin]; [done|].
  unfold start_candidate in Hu.
  rewrite tables_out_count, tables_in_count in Hu by done.
  apply tables_out_dom; [done | lia].
Qed.

Lemma end_candidates_nodes keys :
  ranges inDegree keys →
  filter (end_candidate outDegree inDegree) keys
  ≡ₚ filter (end_candidate outDegree inDegree) (nodes_of tickets).
Proof.
  intros Hr. unfold ranges in Hr. rewrite Hr. unfold nodes_of.
  apply filter_Permutation_NoDup; [apply NoDup_elements..|].
  intros u Hu. rewrite !elem_of_elements, elem_of_union.
  split; [by right|]. intros [Hin|?]; [|done].
  unfold end_candidate in Hu.
  rewrite tables_out_count, tables_in_count in Hu by done.
  apply tables_in_dom; [done | lia].
Qed.

Lemma unbalanced_nodes keys_out keys_in :
  ranges outDegree keys_out → ranges inDegree keys_in →
  Exists (unbalanced outDegree inDegree) keys_out
  ∨ Exists (unbalanced outDegree inDegree) keys_in
  ↔ ∃ node, unbalanced outDegree inDegree node.
Proof.
  intros Hout Hin. unfold ranges in *. rewrite !Exists_exists. split.
  - intros [(u & _ & Hu)|(u & _ & Hu)]; eauto.
  - intros (u & Hu).
    destruct (decide (u ∈ dom outDegree)) as [Ho|Ho].
    { left. exists u. split; [|done]. rewrite Hout. by apply elem_of_elements. }
    right. exists u. split; [|done]. rewrite Hin. apply elem_of_elements.
    apply tables_in_dom; [done|].
    rewrite tables_out_dom in Ho by done. unfold unbalanced in Hu.
    rewrite tables_out_count, tables_in_count in Hu by done. lia.
Qed.
End resolver.

(** ** Counting occurrences *)

Section occ.
Context {A : Type} `{EqDecision A}.
Implicit Types (x y : A) (l : list A).

Lemma occ_nil x : occ x [] = 0%nat.
Proof. reflexivity. Qed.

Lemma occ_cons x y l : occ x (y :: l) = (ind (y = x) + occ x l)%nat.
Proof.
  unfold occ, ind. rewrite filter_cons. by destruct (decide (y = x)).
Qed.

Lemma occ_app x l1 l2 : occ x (l1 ++ l2) = (occ x l1 + occ x l2)%nat.
Proof. unfold occ. by rewrite filter_app, length_app. Qed.

Lemma occ_singleton x y : occ x [y] = ind (y = x).
Proof. rewrite occ_cons, occ_nil. lia. Qed.

Lemma occ_Permutation x l1 l2 : l1 ≡ₚ l2 → occ x l1 = occ x l2.
Proof. intros Hperm. unfold occ. by rewrite Hperm. Qed.

Lemma occ_pos x l : (0 < occ x l)%nat ↔ x ∈ l.
Proof.
  unfold occ. rewrite filter_length_pos. split.
  - by intros (y & Hy & ->).
  - intros Hx. by exists x.
Qed.

Lemma occ_NoDup l : NoDup l ↔ ∀ x, (occ x l ≤ 1)%nat.
Proof.
  induction l as [|a l IH].
  { split; [intros _ x; rewrite occ_nil; lia | constructor]. }
  rewrite NoDup_cons, IH. split.
  - intros [Ha Hl] x. rewrite occ_cons. unfold ind.
    destruct (decide (a = x)) as [<-|]; [|apply Hl].
    destruct (occ a l) eqn:Hocc; [lia|].
    destruct Ha. apply occ_pos. lia.
  - intros Hall. split.
    + intros Ha%occ_pos. specialize (Hall a). rewrite occ_cons in Hall.
      unfold ind in Hall. rewrite decide_True in Hall by done. lia.
    + intros x. specialize (Hall x). rewrite occ_cons in Hall. lia.
Qed.
End occ.

Lemma ind_True (P : Prop) `{Decision P} : P → ind P = 1%nat.
Proof. intros HP. unfold ind. by rewrite decide_True. Qed.

Lemma ind_False (P : Prop) `{Decision P} : ¬ P → ind P = 0%nat.
Proof. intros HP. unfold ind. by rewrite decide_False. Qed.

Lemma ind_le (P : Prop) `{Decision P} : (ind P ≤ 1)%nat.
Proof. unfold ind. destruct (decide P); lia. Qed.

Lemma ind_pair_eq (a b c d : string) :
  ind ((a, b) = (c, d)) = (ind (a = c) * ind (b = d))%nat.
Proof.
  unfold ind. destruct (decide (a = c)) as [->|], (decide (b = d)) as [->|];
    simpl; (rewrite decide_True by done) || (rewrite decide_False by congruence);
    done.
Qed.

Lemma ind_sym (a b : string) : ind (a = b) = ind (b = a).
Proof.
  unfold ind. destruct (decide (a = b)) as [->|];
    [by rewrite decide_True | by rewrite decide_False].
Qed.

Lemma ind_not (P : Prop) `{Decision P} : (ind (¬ P) + ind P = 1)%nat.
Proof.
  unfold ind. destruct (decide P); [by rewrite decide_False by auto|].
  by rewrite decide_True.
Qed.

(** ** Edges that arrive at a node *)

Lemma in_count_empty v : in_count ∅ v = 0%nat.
Proof. unfold in_count. by rewrite map_fold_empty. Qed.

Lemma in_count_insert_None graph k dests v :
  graph !! k = None →
  in_count (<[k := dests]> graph) v = (occ v dests + in_count graph v)%nat.
Proof.
  intros Hk. unfold in_count.
  rewrite map_fold_insert_L; [done | | done].
  intros. lia.
Qed.

Lemma in_count_insert graph k dests v :
  (in_count (<[k := dests]> graph) v + occ v (adj graph k)
   = in_count graph v + occ v dests)%nat.
Proof.
  unfold adj. destruct (graph !! k) as [old|] eqn:Hk; simpl.
  - rewrite <-(insert_delete_id graph k old Hk) at 2.
    rewrite <-insert_delete_eq.
    rewrite !in_count_insert_None by apply lookup_delete_eq. lia.
  - rewrite in_count_insert_None by done. rewrite occ_nil. lia.
Qed.

(** ** The edges of a trail *)

Lemma trail_edges_cons_cons a b l :
  trail_edges (a :: b :: l) = (a, b) :: trail_edges (b :: l).
Proof. reflexivity. Qed.

Lemma trail_edges_length l : length (trail_edges l) = (length l - 1)%nat.
Proof.
  unfold trail_edges. rewrite length_zip_with.
  destruct l as [|a l]; [done|]. simpl tail. rewrite length_cons. lia.
Qed.

Lemma trail_edges_app l1 l2 a b :
  last l1 = Some a → head l2 = Some b →
  trail_edges (l1 ++ l2) = trail_edges l1 ++ (a, b) :: trail_edges l2.
Proof.
  intros Hlast Hhead. destruct l2 as [|b' l2]; [done|].
  injection Hhead as ->.
  induction l1 as [|x l1 IH]; [done|].
  destruct l1 as [|y l1].
  - injection Hlast as ->. reflexivity.
  - change (trail_edges (x :: y :: l1 ++ b :: l2)
            = (x, y) :: trail_edges (y :: l1) ++ (a, b) :: trail_edges (b :: l2)).
    rewrite trail_edges_cons_cons. f_equal. apply IH. done.
Qed.

(** ** Degrees of the graph of a ticket list *)

Lemma in_count_alter_sort graph src v :
  in_count (alter sort_desc src graph) v = in_count graph v.
Proof.
  destruct (graph !! src) as [dests|] eqn:Hsrc.
  - assert (alter sort_desc src graph = <[src := sort_desc dests]> graph) as ->.
    { apply map_eq. intros k. rewrite lookup_alter, lookup_insert.
      destruct (decide (src = k)) as [<-|]; [by rewrite Hsrc | done]. }
    pose proof (in_count_insert graph src (sort_desc dests) v) as Hin.
    unfold adj in Hin. rewrite Hsrc in Hin. simpl in Hin.
    rewrite (occ_Permutation v _ _ (sort_desc_Permutation dests)) in Hin. lia.
  - assert (alter sort_desc src graph = graph) as ->; [|done].
    apply map_eq. intros k. rewrite lookup_alter.
    destruct (decide (src = k)) as [<-|]; [by rewrite Hsrc | done].
Qed.

Lemma buildGraph_sort_in_count srcs graph v :
  in_count (buildGraph_sort srcs graph) v = in_count graph v.
Proof.
  unfold buildGraph_sort. revert graph.
  induction srcs as [|src srcs IH]; intros graph; simpl; [done|].
  by rewrite IH, in_count_alter_sort.
Qed.

Lemma fill_in_count t ps v :
  in_count (t_graph (foldl add_ticket t ps)) v
  = (in_count (t_graph t) v + length (filter (λ p, p.2 = v) ps))%nat.
Proof.
  revert t. induction ps as [|p ps IH]; intros t; simpl; [lia|].
  rewrite IH. simpl.
  pose proof (in_count_insert (t_graph t) p.1
                (adj (t_graph t) p.1 ++ [p.2]) v) as Hin.
  rewrite occ_app, occ_singleton in Hin.
  rewrite filter_cons. unfold ind in Hin.
  destruct (decide (p.2 = v)); simpl; lia.
Qed.

Lemma graph_of_in_count srcs tickets v :
  well_formed tickets → in_count (graph_of srcs tickets) v = in_degree tickets v.
Proof.
  intros Hwf. unfold graph_of.
  rewrite buildGraph_sort_in_count, tables_of_pairs, fill_in_count by done.
  simpl. by rewrite in_count_empty.
Qed.

Lemma graph_of_adj_Permutation srcs tickets u :
  well_formed tickets →
  adj (graph_of srcs tickets) u ≡ₚ (filter (λ p, p.1 = u) (pairs tickets)).*2.
Proof.
  intros Hwf. unfold graph_of.
  rewrite buildGraph_sort_adj, tables_of_pairs, fill_adj by done. simpl.
  rewrite adj_empty, app_nil_l.
  destruct (decide (u ∈ srcs)); [apply sort_desc_Permutation | done].
Qed.

Lemma graph_of_out_degree srcs tickets u :
  well_formed tickets →
  length (adj (graph_of srcs tickets) u) = out_degree tickets u.
Proof.
  intros Hwf. rewrite (graph_of_adj_Permutation srcs tickets u Hwf).
  unfold out_degree. by rewrite length_fmap.
Qed.

Lemma occ_destinations (ps : list (string * string)) u v :
  occ v (filter (λ p, p.1 = u) ps).*2 = occ (u, v) ps.
Proof.
  induction ps as [|[a b] ps IH]; [done|].
  rewrite filter_cons, (occ_cons (u, v)), ind_pair_eq. simpl.
  destruct (decide (a = u)) as [->|Hne].
  - rewrite fmap_cons, occ_cons, IH, (ind_True (u = u)) by done. simpl. lia.
  - rewrite IH, (ind_False (a = u)) by done. lia.
Qed.

Lemma graph_of_occ srcs tickets u v :
  well_formed tickets →
  occ v (adj (graph_of srcs tickets) u) = occ (u, v) (pairs tickets).
Proof.
  intros Hwf.
  rewrite (occ_Permutation v _ _ (graph_of_adj_Permutation srcs tickets u Hwf)).
  apply occ_destinations.
Qed.

(** ** The walk in one piece *)

Lemma findPath_steps_add n m w :
  findPath_steps (n + m) w = findPath_steps n w ≫= findPath_steps m.
Proof.
  revert w. induction n as [|n IH]; intros w; simpl; [done|].
  destruct (findPath_step w) as [w1|]; simpl; [apply IH | done].
Qed.

Lemma findPath_steps_trans n m w w1 w2 :
  findPath_steps n w = Some w1 → findPath_steps m w1 = Some w2 →
  findPath_steps (n + m) w = Some w2.
Proof. intros H1 H2. by rewrite findPath_steps_add, H1. Qed.

(** The loop is left in one state only. *)
Lemma findPath_steps_exit_unique n m w w1 w2 :
  findPath_steps n w = Some w1 → w_stack w1 = [] →
  findPath_steps m w = Some w2 → w_stack w2 = [] →
  w1 = w2.
Proof.
  revert m w. induction n as [|n IH]; intros m w; simpl.
  - intros [= <-] Hnil. apply findPath_step_None in Hnil.
    destruct m as [|m]; simpl; [by intros [= <-]|]. by rewrite Hnil.
  - destruct (findPath_step w) as [w'|] eqn:Hstep; [|done]. simpl.
    intros Hn Hnil1. destruct m as [|m]; simpl.
    + intros [= <-] Hnil%findPath_step_None. congruence.
    + rewrite Hstep. simpl. by apply IH.
Qed.

Lemma dfs_steps graph curr graph' seq :
  dfs graph curr graph' seq →
  ∀ stack result, ∃ n,
    findPath_steps n (Walk graph (stack ++ [curr]) result)
    = Some (Walk graph' stack (result ++ reverse seq)).
Proof.
  induction 1 as [graph curr Hadj
                 |graph curr dests nextDest graph1 graph2 after before
                    Hcurr _ IH1 _ IH2]; intros stack result.
  - exists 1%nat. simpl.
    rewrite (proj2 (findPath_step_walk_step _ _)
               (walk_pop graph stack curr result Hadj)).
    done.
  - destruct (IH1 (stack ++ [curr]) result) as [n1 Hn1].
    destruct (IH2 stack (result ++ reverse after)) as [n2 Hn2].
    exists (1 + (n1 + n2))%nat.
    apply (findPath_steps_trans 1 _ _
             (Walk (<[curr := dests]> graph)
                   ((stack ++ [curr]) ++ [nextDest]) result)).
    { simpl.
      by rewrite (proj2 (findPath_step_walk_step _ _)
                    (walk_push graph stack curr dests nextDest result Hcurr)). }
    apply (findPath_steps_trans _ _ _ _ _ Hn1).
    by rewrite reverse_app, app_assoc.
Qed.

Lemma dfs_edges graph curr graph' seq :
  dfs graph curr graph' seq →
  (edges graph' + length seq = edges graph + 1)%nat ∧ (0 < length seq)%nat.
Proof.
  induction 1 as [graph curr Hadj
                 |graph curr dests nextDest graph1 graph2 after before
                    Hcurr _ IH1 _ IH2]; [simpl; lia|].
  pose proof (edges_insert_Some graph curr _ dests Hcurr) as He.
  rewrite !length_app in *. simpl in He. lia.
Qed.

(** The walk in one piece always exists. *)
Lemma dfs_total graph curr : ∃ graph' seq, dfs graph curr graph' seq.
Proof.
  remember (edges graph) as n eqn:Hn. revert graph curr Hn.
  induction n as [n IH] using lt_wf_ind. intros graph curr ->.
  destruct (graph !! curr) as [dests|] eqn:Hcurr.
  2:{ exists graph, [curr]. constructor. unfold adj. by rewrite Hcurr. }
  destruct (last dests) as [nextDest|] eqn:Hlast.
  2:{ apply last_None in Hlast as ->.
      exists graph, [curr]. constructor. unfold adj. by rewrite Hcurr. }
  apply last_Some in Hlast as [dests' ->].
  pose proof (edges_insert_Some graph curr _ dests' Hcurr) as He.
  rewrite length_app in He. simpl in He.
  destruct (IH (edges (<[curr := dests']> graph)) ltac:(lia)
              (<[curr := dests']> graph) nextDest eq_refl)
    as (graph1 & after & H1).
  pose proof (dfs_edges _ _ _ _ H1) as [He1 Hpos].
  destruct (IH (edges graph1) ltac:(lia) graph1 curr eq_refl)
    as (graph2 & before & H2).
  exists graph2, (before ++ after). by econstructor.
Qed.

(** [findPath] returns the stops of the walk in one piece. *)
Lemma findPath_dfs start graph graph' seq :
  dfs graph start graph' seq → findPath start graph = Ok seq.
Proof.
  intros Hdfs.
  destruct (dfs_steps _ _ _ _ Hdfs [] []) as [n Hn]. simpl in Hn.
  destruct (findPath_loop_terminates (2 * edges graph + 1)
              (Walk graph [start] [])) as (w & Hloop & Hsteps & Hnil & _).
  { unfold walk_measure. simpl. lia. }
  unfold findPath. rewrite Hloop, reverse_slice_reverse.
  rewrite <-(findPath_steps_exit_unique _ _ _ _ _ Hn eq_refl Hsteps Hnil).
  simpl. by rewrite reverse_involutive.
Qed.

Lemma dfs_walk_inv graph curr graph' seq :
  dfs graph curr graph' seq →
  walk_inv graph curr (Walk graph' [] (reverse seq)).
Proof.
  intros Hdfs.
  destruct (dfs_steps _ _ _ _ Hdfs [] []) as [n Hn]. simpl in Hn.
  apply (walk_inv_steps graph curr _ _ _ (walk_inv_init graph curr) Hn).
Qed.

Lemma dfs_head graph curr graph' seq :
  dfs graph curr graph' seq → head seq = Some curr.
Proof.
  intros Hinv%dfs_walk_inv. pose proof (inv_head _ _ _ Hinv) as Hhead.
  simpl in Hhead. by rewrite reverse_involutive in Hhead.
Qed.

(** What is left of an adjacency list is a front part of it. *)
Lemma dfs_prefix graph curr graph' seq u :
  dfs graph curr graph' seq → ∃ used, adj graph u = adj graph' u ++ used.
Proof.
  intros Hinv%dfs_walk_inv.
  destruct (inv_consumed _ _ _ Hinv u) as (used & Hused & _). eauto.
Qed.

(** The nodes retired are those that can be reached. *)
Lemma dfs_elem_of graph curr graph' seq u :
  dfs graph curr graph' seq → u ∈ seq ↔ rtc (graph_edge graph) curr u.
Proof.
  intros Hinv%dfs_walk_inv. split.
  - intros Hu. apply (inv_reach _ _ _ Hinv). right. simpl.
    by apply elem_of_reverse.
  - intros Hu. apply elem_of_reverse.
    by apply (walk_inv_exit_reach _ _ _ _ Hinv).
Qed.

(** A node that can be reached has no edge left. *)
Lemma dfs_exhausted graph curr graph' seq u :
  dfs graph curr graph' seq →
  rtc (graph_edge graph) curr u → adj graph' u = [].
Proof.
  intros Hdfs Hu. pose proof (dfs_walk_inv _ _ _ _ Hdfs) as Hinv.
  apply (inv_retired _ _ _ Hinv). simpl. apply elem_of_reverse.
  by apply (dfs_elem_of _ _ _ _ _ Hdfs).
Qed.

(** A node that cannot be reached keeps its edges. *)
Lemma dfs_untouched graph curr graph' seq u :
  dfs graph curr graph' seq →
  ¬ rtc (graph_edge graph) curr u → adj graph' u = adj graph u.
Proof.
  intros Hdfs Hu. pose proof (dfs_walk_inv _ _ _ _ Hdfs) as Hinv.
  destruct (decide (adj graph' u = adj graph u)) as [|Hne]; [done|].
  destruct Hu. apply (inv_reach _ _ _ Hinv).
  by apply (inv_touched _ _ _ Hinv).
Qed.

(** ** The walk follows a trail *)

Lemma balanced_but_follow graph curr dests nextDest final :
  graph !! curr = Some (dests ++ [nextDest]) →
  balanced_but graph curr final →
  balanced_but (<[curr := dests]> graph) nextDest final.
Proof.
  intros Hcurr Hbal x. specialize (Hbal x).
  assert (adj graph curr = dests ++ [nextDest]) as Hadj
    by (unfold adj; by rewrite Hcurr).
  pose proof (in_count_insert graph curr dests x) as Hin.
  rewrite Hadj, occ_app, occ_singleton in Hin.
  rewrite adj_insert. rewrite (ind_sym x nextDest).
  destruct (decide (curr = x)) as [<-|Hne].
  - rewrite Hadj, length_app, (ind_True (curr = curr)) in Hbal by done.
    simpl in Hbal. lia.
  - rewrite (ind_False (x = curr)) in Hbal by done. lia.
Qed.

Lemma dfs_trail graph curr graph' seq :
  dfs graph curr graph' seq →
  ∀ final, balanced_but graph curr final →
  last seq = Some final
  ∧ (∀ a b, occ b (adj graph a)
            = (occ b (adj graph' a) + occ (a, b) (trail_edges seq))%nat)
  ∧ (∀ x, balanced_but graph' x x).
Proof.
  induction 1 as [graph curr Hadj
                 |graph curr dests nextDest graph1 graph2 after before
                    Hcurr H1 IH1 H2 IH2]; intros final Hbal.
  - assert (curr = final) as <-.
    { specialize (Hbal curr). rewrite Hadj, (ind_True (curr = curr)) in Hbal by done.
      simpl in Hbal. unfold ind in Hbal.
      destruct (decide (curr = final)); [done | lia]. }
    split_and!; [done | |].
    + intros a b. change (trail_edges [curr]) with (@nil (string * string)).
      rewrite occ_nil. lia.
    + intros x y. specialize (Hbal y).
      rewrite (ind_sym y curr) in Hbal.
      destruct (decide (y = x)) as [->|Hne].
      * rewrite !(ind_True (x = x)) by done.
        unfold ind in Hbal. destruct (decide (curr = x)); lia.
      * rewrite !(ind_False (y = x)) by done.
        unfold ind in Hbal. destruct (decide (curr = y)); lia.
  - assert (adj graph curr = dests ++ [nextDest]) as Hadj
      by (unfold adj; by rewrite Hcurr).
    destruct (IH1 final (balanced_but_follow _ _ _ _ _ Hcurr Hbal))
      as (Hlast1 & Hocc1 & Hbal1).
    destruct (IH2 curr (Hbal1 curr)) as (Hlast2 & Hocc2 & Hbal2).
    pose proof (dfs_head _ _ _ _ H1) as Hhead1.
    split_and!.
    + rewrite last_app, Hlast1. done.
    + intros a b. rewrite (trail_edges_app _ _ curr nextDest) by done.
      rewrite occ_app, occ_cons, ind_pair_eq.
      pose proof (Hocc1 a b) as Ha1. pose proof (Hocc2 a b) as Ha2.
      rewrite adj_insert in Ha1.
      destruct (decide (curr = a)) as [<-|Hne].
      * rewrite Hadj, occ_app, occ_singleton, (ind_True (curr = curr)) by done.
        lia.
      * rewrite (ind_False (curr = a)) by done. lia.
    + done.
Qed.

(** The walk does not end at a node that had more edges out than in when
    it was first left, nor at another node with as many out as in. *)
Lemma dfs_last graph curr graph' seq :
  dfs graph curr graph' seq →
  ∀ s, (in_count graph s + 1 ≤ length (adj graph s) + ind (curr ≠ s))%nat →
  last seq ≠ Some s.
Proof.
  induction 1 as [graph curr Hadj
                 |graph curr dests nextDest graph1 graph2 after before
                    Hcurr H1 IH1 H2 IH2]; intros s Hs.
  - simpl. intros [= ->]. rewrite Hadj in Hs.
    rewrite (ind_False (s ≠ s)) in Hs by auto. simpl in Hs. lia.
  - assert (adj graph curr = dests ++ [nextDest]) as Hadj
      by (unfold adj; by rewrite Hcurr).
    pose proof (dfs_head _ _ _ _ H1) as Hhead1.
    assert (last (before ++ after) = last after) as ->.
    { rewrite last_app. destruct (last after) eqn:Hl; [done|].
      apply last_None in Hl. by subst after. }
    apply IH1.
    pose proof (in_count_insert graph curr dests s) as Hin.
    rewrite Hadj, occ_app, occ_singleton in Hin.
    rewrite adj_insert.
    pose proof (ind_not (nextDest = s)). pose proof (ind_not (curr = s)).
    destruct (decide (curr = s)) as [->|Hne].
    + rewrite Hadj, length_app in Hs. simpl in Hs.
      rewrite (ind_True (s = s)) in * by done. lia.
    + rewrite (ind_False (curr = s)) in * by done. lia.
Qed.

(** ** The lexicographic order *)

Lemma string_ltb_le_ne (a b : string) :
  String.le a b → a ≠ b → String.ltb a b = true.
Proof.
  unfold String.le, String.leb, String.ltb. intros Hle Hne.
  destruct (String.compare a b) eqn:Hc; [|done|done].
  by apply String.compare_eq_iff in Hc.
Qed.

Lemma trail_le_nil b : trail_le [] b.
Proof. destruct b; [by left | by right]. Qed.

Lemma trail_le_cons x a b : trail_le a b → trail_le (x :: a) (x :: b).
Proof.
  intros [->|Hlt]; [by left|]. right. simpl.
  rewrite String.eqb_refl, Hlt. by rewrite orb_true_r.
Qed.

Lemma trail_le_lt x y a b : String.ltb x y = true → trail_le (x :: a) (y :: b).
Proof. intros Hlt. right. simpl. by rewrite Hlt. Qed.

Lemma trail_le_app a b a' b' :
  trail_le a b → length a = length b → trail_le a' b' →
  trail_le (a ++ a') (b ++ b').
Proof.
  revert b. induction a as [|x a IH]; intros [|y b] Hab Hlen Hab';
    simpl in *; try done.
  destruct Hab as [[= -> ->]|Hlt].
  - apply trail_le_cons, IH; [by left | done | done].
  - simpl in Hlt. apply orb_true_iff in Hlt as [Hlt|[Heq Hlt]%andb_true_iff].
    + by apply trail_le_lt.
    + apply String.eqb_eq in Heq as ->.
      apply trail_le_cons, IH; [by right | lia | done].
Qed.

(** ** Trails *)

Lemma trail_edges_singleton (x : string) : trail_edges [x] = [].
Proof. reflexivity. Qed.

Lemma elem_of_trail_edges trail a b :
  (a, b) ∈ trail_edges trail → a ∈ trail ∧ b ∈ trail.
Proof.
  induction trail as [|x [|y l] IH]; [by intros ?%not_elem_of_nil..|].
  rewrite trail_edges_cons_cons. intros [[= -> ->]|Hin]%elem_of_cons.
  - split; [left | right; left].
  - destruct (IH Hin). split; by right.
Qed.

Lemma elem_of_trail_edges_split trail a b :
  (a, b) ∈ trail_edges trail → ∃ l1 l2, trail = (l1 ++ [a]) ++ b :: l2.
Proof.
  induction trail as [|x [|y l] IH]; [by intros ?%not_elem_of_nil..|].
  rewrite trail_edges_cons_cons. intros [[= -> ->]|Hin]%elem_of_cons.
  - by exists [], l.
  - destruct (IH Hin) as (l1 & l2 & Heq). exists (x :: l1), l2.
    simpl. by rewrite Heq.
Qed.

(** Every stop of a trail can be reached from its first stop, and its last
    stop from every stop. *)
Lemma trail_reach (R : relation string) trail first :
  head trail = Some first →
  (∀ a b, (a, b) ∈ trail_edges trail → R a b) →
  ∀ x, x ∈ trail → rtc R first x.
Proof.
  revert first.
  induction trail as [|y [|z l] IH]; intros first Hhead Hedges x Hx.
  - by apply not_elem_of_nil in Hx.
  - injection Hhead as ->. by apply list_elem_of_singleton in Hx as ->.
  - injection Hhead as ->. apply elem_of_cons in Hx as [->|Hx]; [done|].
    eapply rtc_l.
    { apply (Hedges first z). rewrite trail_edges_cons_cons. left. }
    apply (IH z); [done | | done].
    intros a b Hab. apply Hedges. rewrite trail_edges_cons_cons. by right.
Qed.

Lemma trail_reach_last (R : relation string) trail final :
  last trail = Some final →
  (∀ a b, (a, b) ∈ trail_edges trail → R a b) →
  ∀ x, x ∈ trail → rtc R x final.
Proof.
  induction trail as [|y [|z l] IH]; intros Hlast Hedges x Hx.
  - by apply not_elem_of_nil in Hx.
  - injection Hlast as ->. by apply list_elem_of_singleton in Hx as ->.
  - assert (∀ a b, (a, b) ∈ trail_edges (z :: l) → R a b) as Hedges'.
    { intros a b Hab. apply Hedges. rewrite trail_edges_cons_cons. by right. }
    apply elem_of_cons in Hx as [->|Hx]; [|by apply IH].
    eapply rtc_l.
    { apply (Hedges y z). rewrite trail_edges_cons_cons. left. }
    apply IH; [done | done | left].
Qed.

(** ** Trails that use all that can be reached *)

Lemma covers_reach graph first trail x :
  covers graph first trail → x ∈ trail → rtc (graph_edge graph) first x.
Proof.
  intros (Hhead & _ & Hin & _) Hx. by apply (trail_reach _ trail).
Qed.

Lemma covers_edges graph first trail1 trail2 :
  covers graph first trail1 → covers graph first trail2 →
  trail_edges trail1 ≡ₚ trail_edges trail2.
Proof.
  intros H1 H2.
  pose proof H1 as (_ & Hnd1 & Hin1 & Hall1).
  pose proof H2 as (_ & Hnd2 & Hin2 & Hall2).
  apply NoDup_Permutation; [done | done |]. intros [a b]. split.
  - intros Hab. apply Hall2; [|by apply Hin1].
    apply (covers_reach _ _ trail1); [done|].
    by apply elem_of_trail_edges in Hab as [? _].
  - intros Hab. apply Hall1; [|by apply Hin2].
    apply (covers_reach _ _ trail2); [done|].
    by apply elem_of_trail_edges in Hab as [? _].
Qed.

Lemma covers_length graph first trail1 trail2 :
  covers graph first trail1 → covers graph first trail2 →
  length trail1 = length trail2.
Proof.
  intros H1 H2. pose proof (Permutation_length (covers_edges _ _ _ _ H1 H2)) as Hlen.
  rewrite !trail_edges_length in Hlen.
  destruct H1 as (Hh1 & _), H2 as (Hh2 & _).
  destruct trail1, trail2; simpl in *; try done. lia.
Qed.

(** ** Graphs without repeated edges, in descending order *)

Lemma graph_edge_follow graph curr dests nextDest a b :
  graph !! curr = Some (dests ++ [nextDest]) →
  simple_graph graph →
  graph_edge (<[curr := dests]> graph) a b
  ↔ graph_edge graph a b ∧ (a, b) ≠ (curr, nextDest).
Proof.
  intros Hcurr Hsimple. unfold graph_edge. rewrite adj_insert.
  assert (adj graph curr = dests ++ [nextDest]) as Hadj
    by (unfold adj; by rewrite Hcurr).
  specialize (Hsimple curr). rewrite Hadj in Hsimple.
  apply NoDup_app in Hsimple as (_ & Hdisj & _).
  destruct (decide (curr = a)) as [<-|Hne].
  - rewrite Hadj, elem_of_app, list_elem_of_singleton. split.
    + intros Hb. split; [by left|]. intros [= ->].
      apply (Hdisj nextDest Hb). by apply list_elem_of_singleton.
    + intros [[Hb| ->] Hne]; [done | by destruct Hne].
  - split; [|by intros [? _]]. intros Hb. split; [done|]. by intros [= -> ->].
Qed.

Lemma simple_graph_follow graph curr dests nextDest :
  graph !! curr = Some (dests ++ [nextDest]) →
  simple_graph graph → simple_graph (<[curr := dests]> graph).
Proof.
  intros Hcurr Hsimple u. rewrite adj_insert.
  destruct (decide (curr = u)) as [<-|]; [|apply Hsimple].
  specialize (Hsimple curr). unfold adj in Hsimple. rewrite Hcurr in Hsimple.
  simpl in Hsimple. by apply NoDup_app in Hsimple as (? & _).
Qed.

Lemma sorted_graph_follow graph curr dests nextDest :
  graph !! curr = Some (dests ++ [nextDest]) →
  sorted_graph graph → sorted_graph (<[curr := dests]> graph).
Proof.
  intros Hcurr Hsorted u. rewrite adj_insert.
  destruct (decide (curr = u)) as [<-|]; [|apply Hsorted].
  specialize (Hsorted curr). unfold adj in Hsorted. rewrite Hcurr in Hsorted.
  simpl in Hsorted. by apply StronglySorted_app_1_l in Hsorted.
Qed.

Lemma dfs_simple graph curr graph' seq :
  dfs graph curr graph' seq → simple_graph graph → simple_graph graph'.
Proof.
  intros Hdfs Hsimple u. specialize (Hsimple u).
  destruct (dfs_prefix _ _ _ _ u Hdfs) as [used Hused].
  rewrite Hused in Hsimple. by apply NoDup_app in Hsimple as (? & _).
Qed.

Lemma dfs_sorted graph curr graph' seq :
  dfs graph curr graph' seq → sorted_graph graph → sorted_graph graph'.
Proof.
  intros Hdfs Hsorted u. specialize (Hsorted u).
  destruct (dfs_prefix _ _ _ _ u Hdfs) as [used Hused].
  rewrite Hused in Hsorted. by apply StronglySorted_app_1_l in Hsorted.
Qed.

Lemma dfs_graph_edge graph curr graph' seq a b :
  dfs graph curr graph' seq → graph_edge graph' a b → graph_edge graph a b.
Proof.
  intros Hdfs Hab. unfold graph_edge in *.
  destruct (dfs_prefix _ _ _ _ a Hdfs) as [used ->].
  apply elem_of_app. by left.
Qed.

(** On a graph without repeated edges that is balanced but for its two
    ends, the walk uses every edge it can reach, once. *)
Lemma dfs_covers graph curr graph' seq final :
  dfs graph curr graph' seq →
  simple_graph graph → balanced_but graph curr final →
  covers graph curr seq.
Proof.
  intros Hdfs Hsimple Hbal.
  destruct (dfs_trail _ _ _ _ Hdfs final Hbal) as (_ & Hocc & _).
  unfold covers. split_and!.
  - by apply (dfs_head graph _ graph').
  - apply occ_NoDup. intros [a b].
    pose proof (proj1 (occ_NoDup _) (Hsimple a) b). specialize (Hocc a b). lia.
  - intros a b Hab%occ_pos. apply occ_pos. specialize (Hocc a b). lia.
  - intros a b Ha Hab%occ_pos. apply occ_pos. specialize (Hocc a b).
    rewrite (dfs_exhausted _ _ _ _ a Hdfs Ha), occ_nil in Hocc. lia.
Qed.

(** ** The walk returns the least trail *)

(** On a graph in descending order, no trail that starts at the same node
    and uses every edge it can reach comes before the stops of the walk. *)
Lemma dfs_least graph curr graph' seq :
  dfs graph curr graph' seq →
  ∀ final trail,
    balanced_but graph curr final → simple_graph graph → sorted_graph graph →
    covers graph curr trail → trail_le seq trail.
Proof.
  induction 1 as [graph curr Hadj
                 |graph curr dests nextDest graph1 graph2 after before
                    Hcurr H1 IH1 H2 IH2];
    intros final trail Hbal Hsimple Hsorted Hcov.
  { destruct Hcov as (Hhead & _ & _ & _).
    destruct trail as [|x trail]; [done|]. injection Hhead as ->.
    apply trail_le_cons, trail_le_nil. }
  assert (adj graph curr = dests ++ [nextDest]) as Hadj
    by (unfold adj; by rewrite Hcurr).
  assert (graph_edge graph curr nextDest) as Hedge.
  { unfold graph_edge. rewrite Hadj, elem_of_app. right.
    by apply list_elem_of_singleton. }
  pose proof (balanced_but_follow _ _ _ _ _ Hcurr Hbal) as Hbal1.
  pose proof (simple_graph_follow _ _ _ _ Hcurr Hsimple) as Hsimple1.
  pose proof (sorted_graph_follow _ _ _ _ Hcurr Hsorted) as Hsorted1.
  destruct (dfs_trail _ _ _ _ H1 final Hbal1) as (_ & _ & Hbal2).
  pose proof (dfs_simple _ _ _ _ H1 Hsimple1) as Hsimple2.
  pose proof (dfs_sorted _ _ _ _ H1 Hsorted1) as Hsorted2.
  pose proof (dfs_head _ _ _ _ H1) as Hhead1.
  pose proof (dfs_head _ _ _ _ H2) as Hhead2.
  pose proof Hcov as (Hhead & Hnd & Hin & Hall).
  pose proof (Hall curr nextDest (rtc_refl _ _) Hedge) as Hfirst.
  assert (∀ a b, graph_edge (<[curr := dests]> graph) a b → graph_edge graph a b)
    as Hsub.
  { intros a b Hab.
    by apply (graph_edge_follow _ _ _ _ _ _ Hcurr Hsimple) in Hab as [? _]. }
  assert (∀ a, rtc (graph_edge (<[curr := dests]> graph)) nextDest a →
               rtc (graph_edge graph) curr a) as Hreach.
  { intros a Ha. eapply rtc_l; [exact Hedge|].
    eapply rtc_subrel; [|exact Ha]. exact Hsub. }
  destruct (decide (adj graph1 curr = [])) as [Hnil|Hmore].
  - (* every edge out of [curr] is used after [nextDest] *)
    assert (before = [curr]) as ->.
    { inversion H2 as [|? ? dests' ? ? ? ? ? Hc]; subst; [done|].
      unfold adj in Hnil. rewrite Hc in Hnil. by destruct dests'. }
    simpl.
    destruct trail as [|x [|w rest]];
      [done | by apply not_elem_of_nil in Hfirst |].
    injection Hhead as ->.
    rewrite trail_edges_cons_cons in Hnd, Hin, Hall, Hfirst.
    apply NoDup_cons in Hnd as [Hnotin Hnd].
    assert (w ∈ dests ++ [nextDest]) as Hw.
    { rewrite <-Hadj. apply (Hin curr w). left. }
    destruct (decide (w = nextDest)) as [->|Hne].
    + apply trail_le_cons. apply (IH1 final); [done..|].
      unfold covers. split_and!; [done | done | |].
      * intros a b Hab.
        apply (graph_edge_follow _ _ _ _ _ _ Hcurr Hsimple). split.
        -- apply Hin. by right.
        -- by intros [= -> ->].
      * intros a b Ha Hab.
        apply (graph_edge_follow _ _ _ _ _ _ Hcurr Hsimple) in Hab as [Hab Hne].
        pose proof (Hall a b (Hreach a Ha) Hab) as Hcase.
        by apply elem_of_cons in Hcase as [Heq|Hcase].
    + apply elem_of_app in Hw as [Hw|Hw%list_elem_of_singleton]; [|done].
      destruct after as [|v after]; [done|]. injection Hhead1 as ->.
      right. simpl. rewrite String.eqb_refl.
      rewrite (string_ltb_le_ne nextDest w); [by rewrite orb_true_r | | done].
      specialize (Hsorted curr). rewrite Hadj in Hsorted.
      apply (StronglySorted_app_1_elem_of desc dests [nextDest] w nextDest);
        [done | done | by apply list_elem_of_singleton].
  - (* [curr] is left once more before [nextDest] *)
    assert (¬ rtc (graph_edge (<[curr := dests]> graph)) nextDest curr)
      as Hnoreturn.
    { intros Hr. apply Hmore. by apply (dfs_exhausted _ _ _ _ _ H1). }
    destruct (elem_of_trail_edges_split _ _ _ Hfirst) as (l1 & l2 & ->).
    assert (last (l1 ++ [curr]) = Some curr) as Hlast by apply last_snoc.
    revert Hhead Hnd Hin Hall Hlast.
    generalize (l1 ++ [curr]). intros A Hhead Hnd Hin Hall Hlast.
    rewrite (trail_edges_app A _ curr nextDest) in Hnd, Hin, Hall by done.
    apply NoDup_app in Hnd as (HndA & Hdisj & HndB').
    apply NoDup_cons in HndB' as (HnotB & HndB).
    assert (∀ a b, (a, b) ∈ trail_edges A →
                   graph_edge (<[curr := dests]> graph) a b) as HinA.
    { intros a b Hab.
      apply (graph_edge_follow _ _ _ _ _ _ Hcurr Hsimple). split.
      - apply Hin, elem_of_app. by left.
      - intros [= -> ->]. apply (Hdisj _ Hab). left. }
    assert (∀ a b, (a, b) ∈ trail_edges (nextDest :: l2) →
                   graph_edge (<[curr := dests]> graph) a b) as HinB.
    { intros a b Hab.
      apply (graph_edge_follow _ _ _ _ _ _ Hcurr Hsimple). split.
      - apply Hin, elem_of_app. right. by right.
      - by intros [= -> ->]. }
    assert (∀ x, x ∈ nextDest :: l2 →
                 rtc (graph_edge (<[curr := dests]> graph)) nextDest x)
      as HreachB.
    { by apply trail_reach. }
    assert (∀ x, x ∈ A →
                 ¬ rtc (graph_edge (<[curr := dests]> graph)) nextDest x)
      as HreachA.
    { intros x Hx Hr. apply Hnoreturn. etrans; [exact Hr|].
      by apply (trail_reach_last _ A). }
    assert (covers graph1 curr A) as HcovA.
    { unfold covers. split_and!.
      - destruct A; [done|]. done.
      - done.
      - intros a b Hab. unfold graph_edge.
        rewrite (dfs_untouched _ _ _ _ a H1); [by apply HinA|].
        apply HreachA. by apply elem_of_trail_edges in Hab as [? _].
      - intros a b Ha Hab.
        assert (graph_edge (<[curr := dests]> graph) a b) as Hab1
          by (by apply (dfs_graph_edge _ _ _ _ _ _ H1)).
        assert (rtc (graph_edge graph) curr a) as Ha0.
        { eapply rtc_subrel; [|exact Ha]. intros x y Hxy. apply Hsub.
          by apply (dfs_graph_edge _ _ _ _ _ _ H1). }
        pose proof (Hall a b Ha0 (Hsub _ _ Hab1)) as Hcase.
        apply elem_of_app in Hcase as [?|Hcase]; [done|].
        apply elem_of_cons in Hcase as [[= -> ->]|Hcase].
        + by apply (graph_edge_follow _ _ _ _ _ _ Hcurr Hsimple) in Hab1
            as [_ Hne].
        + apply elem_of_trail_edges in Hcase as [HaB _].
          unfold graph_edge in Hab.
          rewrite (dfs_exhausted _ _ _ _ a H1 (HreachB a HaB)) in Hab.
          by apply not_elem_of_nil in Hab. }
    assert (covers (<[curr := dests]> graph) nextDest (nextDest :: l2))
      as HcovB.
    { unfold covers. split_and!; [done | done | done |].
      intros a b Ha Hab.
      pose proof (Hall a b (Hreach a Ha) (Hsub _ _ Hab)) as Hcase.
      apply elem_of_app in Hcase as [Hcase|Hcase].
      - apply elem_of_trail_edges in Hcase as [HaA _].
        by destruct (HreachA a HaA).
      - apply elem_of_cons in Hcase as [[= -> ->]|Hcase];
          [by destruct Hnoreturn | done]. }
    apply trail_le_app.
    + apply (IH2 curr); [apply Hbal2 | done | done | done].
    + apply (covers_length graph1 curr); [|done].
      apply (dfs_covers _ _ graph2 _ curr); [done | done | apply Hbal2].
    + by apply (IH1 final).
Qed.

(** ** The degrees along a trail *)

Lemma trail_degrees trail first final x :
  head trail = Some first → last trail = Some final →
  (length (filter (λ p, p.1 = x) (trail_edges trail)) + ind (x = final)
   = length (filter (λ p, p.2 = x) (trail_edges trail)) + ind (x = first))%nat.
Proof.
  revert first. induction trail as [|y [|z l] IH]; intros first Hhead Hlast.
  - done.
  - injection Hhead as ->. injection Hlast as ->. simpl. lia.
  - injection Hhead as ->. specialize (IH z eq_refl Hlast).
    rewrite trail_edges_cons_cons, !filter_cons. simpl fst. simpl snd.
    rewrite (ind_sym x first). rewrite (ind_sym x z) in IH.
    unfold ind in *.
    destruct (decide (first = x)), (decide (z = x)); simpl; lia.
Qed.

Lemma eulerian_degrees tickets trail first final x :
  eulerian_trail tickets trail →
  head trail = Some first → last trail = Some final →
  (out_degree tickets x + ind (x = final)
   = in_degree tickets x + ind (x = first))%nat.
Proof.
  intros Heul. unfold out_degree, in_degree. rewrite <-Heul.
  apply trail_degrees.
Qed.

(** ** The endpoint resolver *)

Lemma findStartingPoint_candidate nodes1 nodes2 outDegree inDegree start :
  findStartingPoint nodes1 nodes2 outDegree inDegree = Ok start →
  start_candidate outDegree inDegree start.
Proof.
  rewrite findStartingPoint_spec. case_decide; [done|].
  destruct (filter _ nodes1) as [|s [|s' rest]] eqn:Hf; try done.
  intros [= ->].
  assert (start ∈ filter (start_candidate outDegree inDegree) nodes1) as Hin
    by (rewrite Hf; by left).
  by apply list_elem_of_filter in Hin as [? _].
Qed.

Lemma buildGraph_Ok_inv srcs tickets t :
  buildGraph srcs tickets = Ok t →
  well_formed tickets
  ∧ t = {| t_graph := graph_of srcs tickets;
           t_out := t_out (tables_of tickets);
           t_in := t_in (tables_of tickets) |}.
Proof.
  intros Hb.
  destruct (buildGraph_fill_outcome (Tables ∅ ∅ ∅) tickets)
    as [[Hwf _]|[_ Hpanic]].
  - split; [done|]. rewrite buildGraph_well_formed in Hb by done.
    by injection Hb as <-.
  - unfold buildGraph in Hb. by rewrite Hpanic in Hb.
Qed.

(** Tables that are balanced but for a start and an end pass
    [validateEndPoints]. *)
Lemma validateEndPoints_balanced tickets keys first final :
  well_formed tickets →
  ranges (t_in (tables_of tickets)) keys →
  first ≠ final →
  (∀ x, (out_degree tickets x + ind (x = final)
         = in_degree tickets x + ind (x = first))%nat) →
  validateEndPoints keys [first]
    (t_out (tables_of tickets)) (t_in (tables_of tickets)) = Ok ().
Proof.
  intros Hwf Hr Hne Hbal. rewrite validateEndPoints_spec.
  rewrite decide_False.
  2:{ rewrite Exists_exists. intros (x & _ & Hx). unfold unbalanced in Hx.
      rewrite tables_out_count, tables_in_count in Hx by done.
      specialize (Hbal x). pose proof (ind_le (x = final)).
      pose proof (ind_le (x = first)). lia. }
  rewrite decide_False; [done|]. intros [_ Hlen]. apply Hlen.
  rewrite (end_candidates_nodes tickets Hwf keys Hr).
  assert (filter (end_candidate (t_out (tables_of tickets))
                    (t_in (tables_of tickets))) (nodes_of tickets)
          ≡ₚ [final]) as ->; [|done].
  apply NoDup_Permutation.
  - apply NoDup_filter. unfold nodes_of. apply NoDup_elements.
  - apply NoDup_singleton.
  - intros x. rewrite list_elem_of_filter, list_elem_of_singleton.
    unfold end_candidate. rewrite tables_out_count, tables_in_count by done.
    pose proof (Hbal x) as Hx. unfold ind in Hx. split.
    + intros [Hcand _].
      destruct (decide (x = final)); [done|].
      destruct (decide (x = first)); lia.
    + intros ->. rewrite decide_True in Hx by done.
      rewrite decide_False in Hx by done.
      split; [lia|]. unfold nodes_of.
      rewrite elem_of_elements, elem_of_union. right.
      apply tables_in_dom; [done | lia].
Qed.

Lemma graph_of_simple srcs tickets :
  well_formed tickets → NoDup (pairs tickets) →
  simple_graph (graph_of srcs tickets).
Proof.
  intros Hwf Hnd u. apply occ_NoDup. intros v.
  rewrite graph_of_occ by done. by apply occ_NoDup.
Qed.

Lemma graph_of_balanced_but srcs tickets first final :
  well_formed tickets →
  (∀ x, (out_degree tickets x + ind (x = final)
         = in_degree tickets x + ind (x = first))%nat) →
  balanced_but (graph_of srcs tickets) first final.
Proof.
  intros Hwf Hbal x. rewrite graph_of_out_degree, graph_of_in_count by done.
  apply Hbal.
Qed.

(** An Eulerian trail uses every edge that can be reached. *)
Lemma eulerian_covers srcs tickets trail first :
  well_formed tickets → NoDup (pairs tickets) →
  eulerian_trail tickets trail → head trail = Some first →
  covers (graph_of srcs tickets) first trail.
Proof.
  intros Hwf Hnd Heul Hhead. unfold eulerian_trail in Heul.
  unfold covers. split_and!.
  - done.
  - by rewrite Heul.
  - intros a b Hab. apply graph_of_edge; [done|]. unfold flies.
    by rewrite <-Heul.
  - intros a b _ Hab. apply graph_of_edge in Hab; [|done]. unfold flies in Hab.
    by rewrite Heul.
Qed.

(** A trail that uses every edge that can be reached is Eulerian as soon as
    some Eulerian trail starts where it starts. *)
Lemma covers_eulerian srcs tickets trail1 trail2 first :
  well_formed tickets → NoDup (pairs tickets) →
  covers (graph_of srcs tickets) first trail1 →
  eulerian_trail tickets trail2 → head trail2 = Some first →
  eulerian_trail tickets trail1.
Proof.
  intros Hwf Hnd Hcov Heul Hhead. unfold eulerian_trail in *.
  rewrite <-Heul.
  apply (covers_edges (graph_of srcs tickets) first); [done|].
  by apply eulerian_covers.
Qed.

(** * The claims of the specification *)

(** ** C1: conservation law *)




(** ** C10: the walk terminates *)

(** C10.  Each iteration of the loop of [findPath] either removes one edge
    from the graph (and pushes a node) or pops one node from the stack (and
    leaves the graph alone); from the state [findPath] starts in, the loop
    is left after at most [2 * edges graph + 1] iterations, so [findPath]
    returns. *)
Theorem C10_findPath_terminates start graph :
  (∀ w w', findPath_step w = Some w' →
     (edges (w_graph w') + 1 = edges (w_graph w)
      ∧ length (w_stack w') = length (w_stack w) + 1)%nat
     ∨ (edges (w_graph w') = edges (w_graph w)
        ∧ length (w_stack w') + 1 = length (w_stack w))%nat)
  ∧ (∃ n w', (n ≤ 2 * edges graph + 1)%nat
       ∧ findPath_steps n (Walk graph [start] []) = Some w'
       ∧ findPath_step w' = None
       ∧ findPath start graph = Ok (reverse (w_result w'))).
Proof.
  split.
  - intros w w' Hstep%findPath_step_walk_step.
    destruct (walk_step_edges _ _ Hstep) as [(?&?&?)|(?&?&?)]; [left|right]; lia.
  - destruct (findPath_loop_terminates (2 * edges graph + 1)
                (Walk graph [start] [])) as (w' & Hloop & Hsteps & Hnil & _).
    { unfold walk_measure. simpl. lia. }
    exists (walk_measure (Walk graph [start] []) - walk_measure w')%nat, w'.
    split_and!.
    + unfold walk_measure at 1. simpl. lia.
    + done.
    + by apply findPath_step_None.
    + unfold findPath. by rewrite Hloop, reverse_slice_reverse.
Qed.

(** ** C5: the cycle error *)

Lemma findStartingPoint_empty nodes1 nodes2 :
  findStartingPoint nodes1 nodes2 ∅ ∅ = Err ErrDifferentStartingPoints.
Proof.
  rewrite findStartingPoint_spec. case_decide; [done|].
  match goal with
  | |- match ?candidates with _ => _ end = _ => assert (candidates = []) as ->
  end; [|done].
  clear. induction nodes1 as [|node nodes1 IH]; [done|].
  rewrite filter_cons, decide_False; [done|].
  unfold start_candidate. rewrite !count_empty. lia.
Qed.

(** C5.  On a ticket list that passes the validator and the endpoint
    resolver, the walk returns a sequence, and [ReconstructItinerary]
    returns [ErrCycleInItinerary] if and only if that sequence has at least
    two elements and its first element equals its last.  Neither side ever
    holds: the sequence begins with the resolved start, which has one more
    edge out than in, so the walk cannot end there; the closing test lets
    the sequence through and [ReconstructItinerary] returns it. *)
Theorem C5_cycle_error sch tickets ticketCount t start :
  validateTickets tickets = Ok ticketCount →
  buildGraph (s_sort sch) tickets = Ok t →
  findStartingPoint (s_start sch) (s_balanced sch) (t_out t) (t_in t)
    = Ok start →
  validateEndPoints (s_end sch) [start] (t_out t) (t_in t) = Ok () →
  ∃ result,
    findPath start (t_graph t) = Ok result
    ∧ (ReconstructItinerary_in sch tickets = Err ErrCycleInItinerary ↔
       (2 ≤ length result)%nat ∧ head result = last result)
    ∧ head result = Some start
    ∧ last result ≠ Some start
    ∧ ReconstructItinerary_in sch tickets = Ok result.
Proof.
  intros Hv Hb Hs He.
  destruct (buildGraph_Ok_inv _ _ _ Hb) as [Hwf Ht].
  destruct (dfs_total (t_graph t) start) as (graph' & result & Hdfs).
  pose proof (findPath_dfs _ _ _ _ Hdfs) as Hpath.
  pose proof (dfs_head _ _ _ _ Hdfs) as Hhead.
  assert (last result ≠ Some start) as Hlast.
  { apply (dfs_last _ _ _ _ Hdfs).
    pose proof (findStartingPoint_candidate _ _ _ _ _ Hs) as Hc.
    unfold start_candidate in Hc. subst t. simpl in *.
    rewrite tables_out_count, tables_in_count in Hc by done.
    rewrite graph_of_out_degree, graph_of_in_count by done. lia. }
  assert (ReconstructItinerary_in sch tickets = cycle_check result) as HRI.
  { destruct tickets as [|ticket tickets].
    { injection Hb as <-. simpl in Hs. by rewrite findStartingPoint_empty in Hs. }
    rewrite ReconstructItinerary_in_cons.
    by rewrite Hv, bind_Ok, Hb, bind_Ok, Hs, bind_Ok, He, bind_Ok, Hpath,
      bind_Ok. }
  assert (¬ ((2 ≤ length result)%nat ∧ head result = last result)) as Hno.
  { intros [_ Heq]. rewrite Hhead in Heq. by destruct Hlast. }
  exists result. rewrite HRI, cycle_check_spec, decide_False by done.
  split_and!; [done | | done | done | done].
  split; [done | by intros []%Hno].
Qed.

Lemma C5_cycle_error_witness :
  let tickets := [["A"; "B"]; ["B"; "A"]; ["A"; "C"]] in
  let sch := schedule_of tickets in
  ∃ ticketCount t start,
    validateTickets tickets = Ok ticketCount
    ∧ buildGraph (s_sort sch) tickets = Ok t
    ∧ findStartingPoint (s_start sch) (s_balanced sch) (t_out t) (t_in t)
        = Ok start
    ∧ validateEndPoints (s_end sch) [start] (t_out t) (t_in t) = Ok ()
    ∧ ∃ result,
        findPath start (t_graph t) = Ok result
        ∧ (ReconstructItinerary_in sch tickets = Err ErrCycleInItinerary ↔
           (2 ≤ length result)%nat ∧ head result = last result)
        ∧ head result = Some start
        ∧ last result ≠ Some start
        ∧ ReconstructItinerary_in sch tickets = Ok result.
Proof.
  intros tickets sch.
  pose (ticketCount :=
    match validateTickets tickets with Ok m => m | _ => ∅ end).
  pose (t :=
    match buildGraph (s_sort sch) tickets with
    | Ok t => t
    | _ => Tables ∅ ∅ ∅
    end).
  assert (validateTickets tickets = Ok ticketCount) as Hv
    by (vm_compute; reflexivity).
  assert (buildGraph (s_sort sch) tickets = Ok t) as Hb
    by (vm_compute; reflexivity).
  assert (findStartingPoint (s_start sch) (s_balanced sch) (t_out t) (t_in t)
          = Ok "A") as Hs by (vm_compute; reflexivity).
  assert (validateEndPoints (s_end sch) ["A"] (t_out t) (t_in t) = Ok ())
    as He by (vm_compute; reflexivity).
  exists ticketCount, t, "A".
  split; [exact Hv|]. split; [exact Hb|]. split; [exact Hs|].
  split; [exact He|].
  exact (C5_cycle_error sch tickets ticketCount t "A" Hv Hb Hs He).
Defined.

(** ** C9: totality on well-formed input *)

Lemma findStartingPoint_outcome nodes1 nodes2 outDegree inDegree :
  (∃ start, findStartingPoint nodes1 nodes2 outDegree inDegree = Ok start)
  ∨ findStartingPoint nodes1 nodes2 outDegree inDegree
    = Err ErrDifferentStartingPoints.
Proof.
  rewrite findStartingPoint_spec. case_decide; [by right|].
  destruct (filter _ nodes1) as [|start [|? ?]]; eauto.
Qed.

Lemma validateEndPoints_outcome nodes startCandidates outDegree inDegree :
  validateEndPoints nodes startCandidates outDegree inDegree = Ok ()
  ∨ validateEndPoints nodes startCandidates outDegree inDegree
    = Err ErrDifferentStartingPoints.
Proof. rewrite validateEndPoints_spec. repeat case_decide; eauto. Qed.

Lemma cycle_check_outcome result :
  cycle_check result = Ok result
  ∨ cycle_check result = Err ErrCycleInItinerary.
Proof. rewrite cycle_check_spec. case_decide; eauto. Qed.

(** On well-formed tickets the call returns an itinerary or one of the
    three errors, whatever the iteration orders. *)
Lemma ReconstructItinerary_in_outcome sch tickets :
  well_formed tickets →
  (∃ it, ReconstructItinerary_in sch tickets = Ok it)
  ∨ (∃ e, ReconstructItinerary_in sch tickets = Err e).
Proof.
  intros Hwf. destruct tickets as [|ticket tickets]; [left; by eexists|].
  destruct (decide (NoDup (pairs (ticket :: tickets)))) as [Hnd|Hnd].
  2:{ right. exists ErrMultipleSameDestination.
      rewrite ReconstructItinerary_in_cons.
      by rewrite validateTickets_repeated. }
  rewrite ReconstructItinerary_in_valid by done.
  destruct (findStartingPoint_outcome (s_start sch) (s_balanced sch)
              (t_out (tables_of (ticket :: tickets)))
              (t_in (tables_of (ticket :: tickets)))) as [[start ->]| ->];
    [|right; by eexists].
  rewrite bind_Ok.
  destruct (validateEndPoints_outcome (s_end sch) [start]
              (t_out (tables_of (ticket :: tickets)))
              (t_in (tables_of (ticket :: tickets)))) as [-> | ->];
    [|right; by eexists].
  rewrite bind_Ok.
  destruct (findPath_spec start (graph_of (s_sort sch) (ticket :: tickets)))
    as (result & -> & _).
  rewrite bind_Ok.
  destruct (cycle_check_outcome result) as [-> | ->];
    [left | right]; by eexists.
Qed.

(** C9.  When every ticket has at least two elements, every access to
    [ticket[0]] and [ticket[1]] is in bounds, and [ReconstructItinerary]
    returns: an itinerary or one of the three classified errors, never a
    panic and never a loop that does not end. *)
Theorem C9_total_on_well_formed sch tickets :
  Forall (λ ticket, (2 ≤ length ticket)%nat) tickets →
  (∀ ticket, ticket ∈ tickets →
     ∃ src dst, index ticket 0 = Ok src ∧ index ticket 1 = Ok dst)
  ∧ ReconstructItinerary_in sch tickets ≠ Panic
  ∧ ReconstructItinerary_in sch tickets ≠ Diverge
  ∧ ((∃ it, ReconstructItinerary_in sch tickets = Ok it)
     ∨ (∃ e, ReconstructItinerary_in sch tickets = Err e
           ∧ (e = ErrMultipleSameDestination
              ∨ e = ErrCycleInItinerary
              ∨ e = ErrDifferentStartingPoints))).
Proof.
  intros Hwf. split.
  { intros ticket Hin.
    pose proof (proj1 (Forall_forall _ _) Hwf ticket Hin) as Hlen.
    simpl in Hlen.
    destruct (index_in_range ticket 0) as [src Hsrc]; [lia|].
    destruct (index_in_range ticket 1) as [dst Hdst]; [lia|].
    eauto. }
  destruct (ReconstructItinerary_in_outcome sch tickets Hwf)
    as [[it Hit]|[e He]].
  - rewrite Hit. split_and!; [done | done | left; eauto].
  - rewrite He. split_and!; [done | done |]. right. exists e.
    split; [done|]. destruct e; auto.
Qed.

Lemma C9_total_on_well_formed_witness :
  let tickets := [["JFK"; "SFO"]; ["JFK"; "ATL"]; ["SFO"; "ATL"]; ["ATL"; "JFK"]] in
  let sch := schedule_of tickets in
  Forall (λ ticket, (2 ≤ length ticket)%nat) tickets
  ∧ ReconstructItinerary_in sch tickets ≠ Panic
  ∧ ReconstructItinerary_in sch tickets ≠ Diverge.
Proof.
  intros tickets sch.
  assert (Forall (λ ticket, (2 ≤ length ticket)%nat) tickets) as Hwf.
  { repeat constructor. }
  split; [exact Hwf|].
  destruct (C9_total_on_well_formed sch tickets Hwf) as (_ & Hp & Hd & _).
  by split.
Defined.

(** ** C4: duplicate tickets *)

Lemma not_NoDup_lookup {A} `{EqDecision A} (l : list A) :
  ¬ NoDup l ↔ ∃ i j x, i ≠ j ∧ l !! i = Some x ∧ l !! j = Some x.
Proof.
  split.
  - intros (front & x & rest & -> & Hin)%not_NoDup_split.
    apply list_elem_of_lookup in Hin as [i Hi].
    exists i, (length front), x. split_and!.
    + apply lookup_lt_Some in Hi. lia.
    + by apply lookup_app_l_Some.
    + by apply list_lookup_middle.
  - intros (i & j & x & Hne & Hi & Hj) Hnd.
    rewrite NoDup_alt in Hnd. by apply Hne, (Hnd i j x).
Qed.

Lemma ReconstructItinerary_in_distinct sch tickets :
  well_formed tickets → NoDup (pairs tickets) →
  ReconstructItinerary_in sch tickets ≠ Err ErrMultipleSameDestination.
Proof.
  intros Hwf Hnd. destruct tickets as [|t l]; [done|].
  rewrite ReconstructItinerary_in_valid by done.
  destruct (findStartingPoint_outcome (s_start sch) (s_balanced sch)
              (t_out (tables_of (t :: l))) (t_in (tables_of (t :: l))))
    as [[start ->]| ->]; [|done].
  rewrite bind_Ok.
  destruct (validateEndPoints_outcome (s_end sch) [start]
              (t_out (tables_of (t :: l))) (t_in (tables_of (t :: l))))
    as [-> | ->]; [|done].
  rewrite bind_Ok.
  destruct (findPath_spec start (graph_of (s_sort sch) (t :: l)))
    as (result & -> & _).
  rewrite bind_Ok. by destruct (cycle_check_outcome result) as [-> | ->].
Qed.

Lemma ReconstructItinerary_in_repeat sch front ticket rest :
  well_formed (front ++ [ticket]) →
  (∃ p, ticket_pair ticket = Some p ∧ p ∈ pairs front) →
  ReconstructItinerary_in sch (front ++ ticket :: rest)
  = Err ErrMultipleSameDestination.
Proof.
  intros Hwf (p & Hp & Hin).
  assert (validateTickets (front ++ ticket :: rest)
          = Err ErrMultipleSameDestination) as Hv.
  { apply (validateTickets_from_repeat _ [] _ _ _ counts_seen_empty Hwf).
    exists p. split; [done|]. by rewrite app_nil_r. }
  destruct front as [|t front].
  - simpl in *. rewrite ReconstructItinerary_in_cons. by rewrite Hv.
  - rewrite <-app_comm_cons in *.
    rewrite ReconstructItinerary_in_cons. by rewrite Hv.
Qed.

(** C4.  On well-formed tickets, [ReconstructItinerary] returns
    [ErrMultipleSameDestination] if and only if two tickets at different
    positions have the same source and the same destination.  The error is
    returned at the first ticket that repeats an earlier one, whatever
    follows it; two tickets that share only their destination, or only
    their source, do not raise it. *)
Theorem C4_duplicate_tickets sch tickets :
  well_formed tickets →
  (ReconstructItinerary_in sch tickets = Err ErrMultipleSameDestination ↔
   ∃ i j p, i ≠ j ∧ pairs tickets !! i = Some p ∧ pairs tickets !! j = Some p)
  ∧ (∀ front ticket rest,
       tickets = front ++ [ticket] →
       (∃ p, ticket_pair ticket = Some p ∧ p ∈ pairs front) →
       ReconstructItinerary_in sch (front ++ ticket :: rest)
       = Err ErrMultipleSameDestination)
  ∧ (∀ a b c, a ≠ c →
       ReconstructItinerary_in sch [[a; b]; [c; b]]
       ≠ Err ErrMultipleSameDestination)
  ∧ (∀ a b c, b ≠ c →
       ReconstructItinerary_in sch [[a; b]; [a; c]]
       ≠ Err ErrMultipleSameDestination).
Proof.
  intros Hwf. split_and!.
  - rewrite <-not_NoDup_lookup. split.
    + intros Herr Hnd. by apply (ReconstructItinerary_in_distinct sch tickets).
    + intros Hnd.
      destruct tickets as [|t l]; [destruct Hnd; constructor|].
      rewrite ReconstructItinerary_in_cons.
      by rewrite validateTickets_repeated.
  - intros front ticket rest -> Hrep.
    by apply ReconstructItinerary_in_repeat.
  - intros a b c Hne. apply ReconstructItinerary_in_distinct.
    + repeat constructor.
    + unfold pairs. simpl. apply NoDup_cons. split; [|apply NoDup_singleton].
      intros Hin%list_elem_of_singleton. congruence.
  - intros a b c Hne. apply ReconstructItinerary_in_distinct.
    + repeat constructor.
    + unfold pairs. simpl. apply NoDup_cons. split; [|apply NoDup_singleton].
      intros Hin%list_elem_of_singleton. congruence.
Qed.

Lemma C4_duplicate_tickets_witness :
  let tickets := [["JFK"; "SFO"]; ["JFK"; "ATL"]; ["JFK"; "SFO"]] in
  let sch := schedule_of tickets in
  well_formed tickets
  ∧ (ReconstructItinerary_in sch tickets = Err ErrMultipleSameDestination ↔
     ∃ i j p, i ≠ j ∧ pairs tickets !! i = Some p ∧ pairs tickets !! j = Some p).
Proof.
  intros tickets sch.
  assert (well_formed tickets) as Hwf by (repeat constructor).
  split; [exact Hwf|].
  exact (proj1 (C4_duplicate_tickets sch tickets Hwf)).
Defined.

(** ** C6: determinism *)

(** C6.  Two runs of [ReconstructItinerary] on the same tickets return the
    same result (the same itinerary, or the same error), whatever orders
    their loops over the maps follow. *)
Theorem C6_deterministic tickets sch1 sch2 :
  admissible tickets sch1 → admissible tickets sch2 →
  ReconstructItinerary_in sch1 tickets = ReconstructItinerary_in sch2 tickets.
Proof. apply schedule_irrelevant. Qed.

Lemma C6_deterministic_witness :
  let tickets := [["JFK"; "SFO"]; ["JFK"; "ATL"]; ["SFO"; "ATL"]; ["ATL"; "JFK"]] in
  let sch1 := schedule_of tickets in
  let sch2 := {| s_sort := ["SFO"; "JFK"; "ATL"];
                 s_start := ["JFK"; "SFO"; "ATL"];
                 s_balanced := ["SFO"; "ATL"; "JFK"];
                 s_end := ["SFO"; "JFK"; "ATL"] |} in
  admissible tickets sch1 ∧ admissible tickets sch2
  ∧ ReconstructItinerary_in sch1 tickets = ReconstructItinerary_in sch2 tickets.
Proof.
  intros tickets sch1 sch2.
  assert (admissible tickets sch1) as H1.
  { unfold admissible, ranges. simpl. repeat split; reflexivity. }
  assert (admissible tickets sch2) as H2.
  { unfold admissible, ranges. repeat split;
      apply (bool_decide_unpack _); vm_compute; exact I. }
  split_and!; [exact H1 | exact H2 |].
  exact (C6_deterministic tickets sch1 sch2 H1 H2).
Defined.

(** ** C7: an example with a choice *)

(** C7.  On the tickets JFK-SFO, JFK-ATL, SFO-ATL, ATL-JFK the call returns
    JFK, ATL, JFK, SFO, ATL and no error. *)
Theorem C7_example sch :
  admissible [["JFK"; "SFO"]; ["JFK"; "ATL"]; ["SFO"; "ATL"]; ["ATL"; "JFK"]] sch →
  ReconstructItinerary_in sch
    [["JFK"; "SFO"]; ["JFK"; "ATL"]; ["SFO"; "ATL"]; ["ATL"; "JFK"]]
  = Ok ["JFK"; "ATL"; "JFK"; "SFO"; "ATL"].
Proof.
  intros Hsch. rewrite (ReconstructItinerary_in_admissible _ _ Hsch).
  vm_compute. reflexivity.
Qed.

Lemma C7_example_witness :
  let tickets := [["JFK"; "SFO"]; ["JFK"; "ATL"]; ["SFO"; "ATL"]; ["ATL"; "JFK"]] in
  admissible tickets (schedule_of tickets)
  ∧ ReconstructItinerary_in (schedule_of tickets) tickets
    = Ok ["JFK"; "ATL"; "JFK"; "SFO"; "ATL"].
Proof.
  intros tickets.
  assert (admissible tickets (schedule_of tickets)) as Hsch.
  { unfold admissible, ranges. simpl. repeat split; reflexivity. }
  split; [exact Hsch|].
  exact (C7_example (schedule_of tickets) Hsch).
Defined.

(** ** C8: a single ticket *)

Lemma count_singleton (k u : string) (n : Z) :
  count {[k := n]} u = if decide (k = u) then n else 0.
Proof.
  unfold count. rewrite lookup_singleton. by destruct (decide (k = u)).
Qed.

Lemma tables_of_single A B :
  tables_of [[A; B]] = Tables {[A := [B]]} {[A := 1]} {[B := 1]}.
Proof.
  unfold tables_of. simpl. rewrite adj_empty, !count_empty. simpl.
  by rewrite !insert_empty.
Qed.

Lemma findPath_single A B :
  A ≠ B → findPath A {[A := [B]]} = Ok [A; B].
Proof.
  intros Hne. unfold findPath.
  assert (edges {[A := [B]]} = 1%nat) as ->.
  { rewrite <-insert_empty, edges_insert_None by apply lookup_empty.
    by rewrite edges_empty. }
  simpl. unfold findPath_step at 1. simpl.
  rewrite lookup_singleton_eq. simpl.
  unfold findPath_step at 1. simpl.
  rewrite lookup_insert_ne, lookup_singleton_ne by done.
  unfold findPath_step at 1. simpl.
  rewrite lookup_insert_eq. simpl.
  reflexivity.
Qed.

(** Evaluate the counters of a one-entry table. *)
Ltac count_single :=
  rewrite ?count_singleton in *;
  repeat first
    [ rewrite decide_True in * by done
    | rewrite decide_False in * by done ].

(** C8, as amended.  For two different strings [A] and [B], the call on the
    single ticket from [A] to [B] returns [A, B] and no error. *)
Theorem C8_single_ticket A B sch :
  A ≠ B → admissible [[A; B]] sch →
  ReconstructItinerary_in sch [[A; B]] = Ok [A; B].
Proof.
  intros Hne Hsch. rewrite (ReconstructItinerary_in_admissible _ _ Hsch).
  assert (B ≠ A) as Hne' by done.
  unfold ReconstructItinerary.
  rewrite ReconstructItinerary_in_valid.
  2: done.
  2: repeat constructor.
  2: { unfold pairs. simpl. apply NoDup_singleton. }
  unfold graph_of, schedule_of. rewrite tables_of_single. simpl.
  rewrite !dom_singleton_L, !elements_singleton.
  rewrite findStartingPoint_spec.
  rewrite decide_False.
  2:{ intros [Hu|Hu%Exists_nil]%Exists_cons; [|done].
      unfold unbalanced in Hu. count_single. lia. }
  rewrite filter_cons, decide_True.
  2:{ unfold start_candidate. count_single. lia. }
  rewrite filter_nil, bind_Ok.
  rewrite validateEndPoints_spec.
  rewrite decide_False.
  2:{ intros [Hu|Hu%Exists_nil]%Exists_cons; [|done].
      unfold unbalanced in Hu. count_single. lia. }
  rewrite filter_cons, (decide_True (P := end_candidate _ _ _)).
  2:{ unfold end_candidate. count_single. lia. }
  rewrite filter_nil. rewrite decide_False by (intros [_ ?]; done).
  rewrite bind_Ok.
  assert (buildGraph_sort [A] {[A := [B]]} = {[A := [B]]}) as ->.
  { unfold buildGraph_sort. simpl. by rewrite alter_singleton_eq. }
  rewrite findPath_single by done. rewrite bind_Ok.
  rewrite cycle_check_spec. rewrite decide_False; [done|].
  intros [_ [=]]. done.
Qed.

Lemma C8_single_ticket_witness :
  "SFO" ≠ "JFK" ∧ admissible [["SFO"; "JFK"]] (schedule_of [["SFO"; "JFK"]])
  ∧ ReconstructItinerary_in (schedule_of [["SFO"; "JFK"]]) [["SFO"; "JFK"]]
    = Ok ["SFO"; "JFK"].
Proof.
  assert ("SFO" ≠ "JFK") as Hne by discriminate.
  assert (admissible [["SFO"; "JFK"]] (schedule_of [["SFO"; "JFK"]])) as Hsch.
  { unfold admissible, ranges. simpl. repeat split; reflexivity. }
  split_and!; [exact Hne | exact Hsch |].
  exact (C8_single_ticket "SFO" "JFK" _ Hne Hsch).
Defined.

(** C8 as stated fails when the two strings are equal: a ticket from a
    place to itself leaves every node balanced, and the endpoint resolver
    rejects the list. *)
Lemma C8_self_loop_counterexample :
  ReconstructItinerary [["A"; "A"]] = Err ErrDifferentStartingPoints
  ∧ ReconstructItinerary [["A"; "A"]] ≠ Ok ["A"; "A"].
Proof. split; [vm_compute; reflexivity | by vm_compute]. Qed.

(** ** C3: the endpoint resolver *)

(** C3.  On a non-empty ticket list without a repeated pair,
    [ReconstructItinerary] returns [ErrDifferentStartingPoints] if and only
    if, over the nodes of the degree tables, the number of start candidates
    (out-degree minus in-degree equal to one) is zero or more than one, or
    some node has an imbalance beyond one in absolute value, or the number
    of end candidates (in-degree minus out-degree equal to one) is not
    one. *)
Theorem C3_different_starting_points sch tickets :
  tickets ≠ [] → well_formed tickets → NoDup (pairs tickets) →
  admissible tickets sch →
  ReconstructItinerary_in sch tickets = Err ErrDifferentStartingPoints ↔
    (length (filter (start_candidate (t_out (tables_of tickets))
                       (t_in (tables_of tickets))) (nodes_of tickets)) = 0%nat
     ∨ (1 < length (filter (start_candidate (t_out (tables_of tickets))
                       (t_in (tables_of tickets))) (nodes_of tickets)))%nat)
    ∨ (∃ node, unbalanced (t_out (tables_of tickets))
                 (t_in (tables_of tickets)) node)
    ∨ length (filter (end_candidate (t_out (tables_of tickets))
                        (t_in (tables_of tickets))) (nodes_of tickets)) ≠ 1%nat.
Proof.
  intros Hne Hwf Hnd (_ & Hstart & _ & Hend).
  pose proof (Permutation_length
                (start_candidates_nodes tickets Hwf _ Hstart)) as Hs.
  pose proof (Permutation_length
                (end_candidates_nodes tickets Hwf _ Hend)) as He.
  pose proof (unbalanced_nodes tickets Hwf _ _ Hstart Hend) as Hu.
  rewrite <-Hs, <-He, <-Hu. clear Hs He Hu.
  rewrite ReconstructItinerary_in_valid by done.
  rewrite findStartingPoint_spec.
  destruct (decide (Exists _ (s_start sch))) as [Hex|Hex].
  { split; [|done]. intros _. right. left. by left. }
  destruct (filter _ (s_start sch)) as [|start [|start' rest]].
  - split; [|done]. intros _. left. by left.
  - rewrite bind_Ok, validateEndPoints_spec.
    destruct (decide (Exists _ (s_end sch))) as [Hex'|Hex'].
    { split; [|done]. intros _. right. left. by right. }
    case_decide as Hcount.
    + split; [|done]. intros _. right. right. by destruct Hcount.
    + rewrite bind_Ok.
      destruct (findPath_spec start (graph_of (s_sort sch) tickets))
        as (result & -> & _).
      rewrite bind_Ok. split.
      * by destruct (cycle_check_outcome result) as [-> | ->].
      * intros [[Hlen|Hlen]|[[?|?]|Hends]]; try done.
        -- simpl in Hlen. lia.
        -- destruct Hcount. by split.
  - split; [|done]. intros _. left. right. simpl. lia.
Qed.

Lemma C3_different_starting_points_witness :
  let tickets := [["SFO"; "LAX"]; ["LAX"; "JFK"]; ["JFK"; "SFO"]] in
  let sch := schedule_of tickets in
  tickets ≠ [] ∧ well_formed tickets ∧ NoDup (pairs tickets)
  ∧ admissible tickets sch
  ∧ (ReconstructItinerary_in sch tickets = Err ErrDifferentStartingPoints ↔
      (length (filter (start_candidate (t_out (tables_of tickets))
                         (t_in (tables_of tickets))) (nodes_of tickets)) = 0%nat
       ∨ (1 < length (filter (start_candidate (t_out (tables_of tickets))
                         (t_in (tables_of tickets))) (nodes_of tickets)))%nat)
      ∨ (∃ node, unbalanced (t_out (tables_of tickets))
                   (t_in (tables_of tickets)) node)
      ∨ length (filter (end_candidate (t_out (tables_of tickets))
                          (t_in (tables_of tickets))) (nodes_of tickets)) ≠ 1%nat).
Proof.
  intros tickets sch.
  assert (tickets ≠ []) as Hne by discriminate.
  assert (well_formed tickets) as Hwf by (repeat constructor).
  assert (NoDup (pairs tickets)) as Hnd.
  { apply (bool_decide_unpack _). vm_compute. exact I. }
  assert (admissible tickets sch) as Hsch.
  { unfold admissible, ranges. simpl. repeat split; reflexivity. }
  split_and!; [exact Hne | exact Hwf | exact Hnd | exact Hsch |].
  exact (C3_different_starting_points sch tickets Hne Hwf Hnd Hsch).
Defined.

(** ** C2: the tie-break *)

Lemma graph_of_sorted srcs tickets :
  ranges (t_graph (tables_of tickets)) srcs →
  sorted_graph (graph_of srcs tickets).
Proof.
  intros Hr u. unfold graph_of. rewrite (buildGraph_sort_ranges _ _ Hr).
  unfold adj. rewrite lookup_fmap.
  destruct (t_graph (tables_of tickets) !! u) as [dests|]; simpl.
  - apply sort_desc_StronglySorted.
  - constructor.
Qed.

(** C2, as amended.  On a duplicate-free ticket list for which
    [findStartingPoint] resolves a start and which has an Eulerian trail
    from that start (a sequence of stops whose consecutive pairs are the
    tickets, each used once), [ReconstructItinerary] returns an itinerary
    that begins with the start, is itself such a trail, and is the
    lexicographically smallest of them: it is the given trail or comes
    before it. *)
Theorem C2_smallest_trail tickets sch start trail :
  well_formed tickets → NoDup (pairs tickets) → admissible tickets sch →
  findStartingPoint (s_start sch) (s_balanced sch)
    (t_out (tables_of tickets)) (t_in (tables_of tickets)) = Ok start →
  eulerian_trail tickets trail → head trail = Some start →
  ∃ it,
    ReconstructItinerary_in sch tickets = Ok it
    ∧ head it = Some start
    ∧ eulerian_trail tickets it
    ∧ (it = trail ∨ trail_ltb it trail = true).
Proof.
  intros Hwf Hnd (Hsort & _ & _ & Hend) Hs Heul Hhead.
  assert (tickets ≠ []) as Hne.
  { intros ->. simpl in Hs. by rewrite findStartingPoint_empty in Hs. }
  destruct (last trail) as [final|] eqn:Hlast.
  2:{ apply last_None in Hlast. by subst trail. }
  pose proof (findStartingPoint_candidate _ _ _ _ _ Hs) as Hcand.
  unfold start_candidate in Hcand.
  rewrite tables_out_count, tables_in_count in Hcand by done.
  assert (∀ x, (out_degree tickets x + ind (x = final)
                = in_degree tickets x + ind (x = start))%nat) as Hbal.
  { intros x. by apply (eulerian_degrees _ trail). }
  assert (start ≠ final) as Hsf.
  { intros <-. specialize (Hbal start).
    rewrite !(ind_True (start = start)) in Hbal by done. lia. }
  pose proof (validateEndPoints_balanced tickets (s_end sch) start final
                Hwf Hend Hsf Hbal) as He.
  destruct (dfs_total (graph_of (s_sort sch) tickets) start)
    as (graph' & it & Hdfs).
  pose proof (graph_of_balanced_but (s_sort sch) tickets start final Hwf Hbal)
    as Hgbal.
  pose proof (graph_of_simple (s_sort sch) tickets Hwf Hnd) as Hsimple.
  pose proof (graph_of_sorted _ _ Hsort) as Hsorted.
  destruct (dfs_trail _ _ _ _ Hdfs final Hgbal) as (Hlast' & _ & _).
  pose proof (dfs_head _ _ _ _ Hdfs) as Hhead'.
  pose proof (dfs_covers _ _ _ _ final Hdfs Hsimple Hgbal) as Hcov.
  exists it. split_and!.
  - rewrite ReconstructItinerary_in_valid by done.
    rewrite Hs, bind_Ok, He, bind_Ok, (findPath_dfs _ _ _ _ Hdfs), bind_Ok.
    rewrite cycle_check_spec, decide_False; [done|].
    intros [_ Heq]. rewrite Hhead', Hlast' in Heq. by injection Heq.
  - done.
  - by apply (covers_eulerian (s_sort sch) tickets it trail start).
  - apply (dfs_least _ _ _ _ Hdfs final); [done..|]. by apply eulerian_covers.
Qed.

Lemma C2_smallest_trail_witness :
  let tickets := [["JFK"; "SFO"]; ["JFK"; "ATL"]; ["SFO"; "ATL"]; ["ATL"; "JFK"]] in
  let sch := schedule_of tickets in
  let trail := ["JFK"; "SFO"; "ATL"; "JFK"; "ATL"] in
  well_formed tickets ∧ NoDup (pairs tickets) ∧ admissible tickets sch
  ∧ findStartingPoint (s_start sch) (s_balanced sch)
      (t_out (tables_of tickets)) (t_in (tables_of tickets)) = Ok "JFK"
  ∧ eulerian_trail tickets trail ∧ head trail = Some "JFK"
  ∧ ∃ it,
      ReconstructItinerary_in sch tickets = Ok it
      ∧ head it = Some "JFK"
      ∧ eulerian_trail tickets it
      ∧ (it = trail ∨ trail_ltb it trail = true).
Proof.
  intros tickets sch trail.
  assert (well_formed tickets) as Hwf by (repeat constructor).
  assert (NoDup (pairs tickets)) as Hnd.
  { apply (bool_decide_unpack _). vm_compute. exact I. }
  assert (admissible tickets sch) as Hsch.
  { unfold admissible, ranges. simpl. repeat split; reflexivity. }
  assert (findStartingPoint (s_start sch) (s_balanced sch)
            (t_out (tables_of tickets)) (t_in (tables_of tickets)) = Ok "JFK")
    as Hs by (vm_compute; reflexivity).
  assert (eulerian_trail tickets trail) as Heul.
  { apply (bool_decide_unpack _). vm_compute. exact I. }
  split_and!; [exact Hwf | exact Hnd | exact Hsch | exact Hs | exact Heul
              | reflexivity |].
  exact (C2_smallest_trail tickets sch "JFK" trail Hwf Hnd Hsch Hs Heul eq_refl).
Defined.

(** C2 as stated fails.  On the tickets JFK-SFO, JFK-ATL, SFO-ATL, ATL-JFK
    two trails from JFK use every ticket once; the walk leaves JFK for ATL,
    the smaller destination, and returns the lexicographically smaller of
    the two trails. *)
Lemma C2_greatest_trail_counterexample :
  let tickets := [["JFK"; "SFO"]; ["JFK"; "ATL"]; ["SFO"; "ATL"]; ["ATL"; "JFK"]] in
  let returned := ["JFK"; "ATL"; "JFK"; "SFO"; "ATL"] in
  let other := ["JFK"; "SFO"; "ATL"; "JFK"; "ATL"] in
  ReconstructItinerary tickets = Ok returned
  ∧ eulerian_trail tickets returned
  ∧ eulerian_trail tickets other
  ∧ head other = head returned
  ∧ trail_ltb returned other = true.
Proof.
  split_and!.
  - vm_compute. reflexivity.
  - apply (bool_decide_unpack _). vm_compute. exact I.
  - apply (bool_decide_unpack _). vm_compute. exact I.
  - reflexivity.
  - vm_compute. reflexivity.
Qed.
